(** * metanoia: the metadata registry and the schema compiler

    A shallow embedding of [SchemaBuilder] (the registry that the decorators
    fill and [build], which compiles it to a GraphQL schema configuration) and
    of [getInheritanceTree] (src/util/tree.ts).

    Conventions of the embedding:
    - a JavaScript object used as a string-keyed map is an association list
      in insertion order ([Hash]); assigning an existing key keeps its place;
    - the builder's mutable state is threaded through a state-and-exception
      monad [M]; a throw keeps the state reached so far;
    - functions supplied by the caller (resolvers, hooks) are opaque tokens;
      a thunk returning a class is represented by the class it returns;
    - the objects that the GraphQL library constructs are represented by the
      configuration handed to their constructors, which are taken as total:
      what the library itself asserts about its arguments, and the walk over
      the reachable types that [new GraphQLSchema] makes, are outside the
      embedding; a lazy [fields] or [interfaces] thunk is kept as the closure
      data it captures and forced by a separate function, the way the engine
      forces it once the tables of [build] are complete;
    - references between materialised types are by name;
    - a lookup [h[k]] sees the own keys of [h] only, not what
      [Object.prototype] would add. *)

From Stdlib Require Import String Ascii List Bool Arith ZArith Permutation.
Import ListNotations.
Open Scope string_scope.
Open Scope list_scope.
Open Scope nat_scope.

Set Warnings "-register-all".

(** ** Errors and results *)

(** [throw new Error(msg)], and the [TypeError] the runtime raises itself. *)
Inductive JSError : Type :=
| Error (message : string)
| TypeError (message : string).

Inductive Result (A : Type) : Type :=
| Ok (a : A)
| Throw (e : JSError).
Arguments Ok {A} a.
Arguments Throw {A} e.

(** ** String-keyed objects *)

Module Hash.

(** Modelled from the spec: the type [Hash<T>] of src/util/hash, which is
    not part of the sources at hand: a mapping from names to records, that
    is, a plain object indexed by strings.  Entries are kept in insertion
    order, which is the order [Object.entries] enumerates them in (keys
    that read as array indices, which JavaScript enumerates first, are not
    told apart). *)
Definition t (V : Type) : Type := list (string * V).

Section Ops.
Variable V : Type.

(** [h[k]] *)
Fixpoint get (h : t V) (k : string) : option V :=
  match h with
  | [] => None
  | (k', v) :: h' => if String.eqb k k' then Some v else get h' k
  end.

(** [k in h] *)
Definition has (h : t V) (k : string) : bool :=
  match get h k with Some _ => true | None => false end.

(** [h[k] = v]: an existing key keeps its position. *)
Fixpoint set (h : t V) (k : string) (v : V) : t V :=
  match h with
  | [] => [(k, v)]
  | (k', v') :: h' =>
      if String.eqb k k' then (k', v) :: h' else (k', v') :: set h' k v
  end.

(** [Object.keys(h)] *)
Definition keys (h : t V) : list string := map fst h.

(** [{ ...p, ...c }] *)
Definition spread (p c : t V) : t V :=
  fold_left (fun acc kv => set acc (fst kv) (snd kv)) c p.

(** [{ [k]: v }] *)
Definition single (k : string) (v : V) : t V := [(k, v)].

End Ops.

Arguments get {V} h k.
Arguments has {V} h k.
Arguments set {V} h k v.
Arguments keys {V} h.
Arguments spread {V} p c.
Arguments single {V} k v.

End Hash.

(** [xs.reduce(f)] without an initial value: a [TypeError] on an empty array. *)
Definition reduce1 {A : Type} (f : A -> A -> A) (xs : list A) : Result A :=
  match xs with
  | [] => Throw (TypeError "Reduce of empty array with no initial value")
  | x :: xs' => Ok (fold_left f xs' x)
  end.

(** ** Strings *)

(** White space removed by [String.prototype.trim], within ASCII: tab, line
    feed, vertical tab, form feed, carriage return and space. *)
Definition is_space (c : ascii) : bool :=
  let n := nat_of_ascii c in
  ((9 <=? n) && (n <=? 13)) || (n =? 32).

Fixpoint trimStart (s : string) : string :=
  match s with
  | EmptyString => EmptyString
  | String c s' => if is_space c then trimStart s' else s
  end.

Fixpoint string_rev_onto (s acc : string) : string :=
  match s with
  | EmptyString => acc
  | String c s' => string_rev_onto s' (String c acc)
  end.

Definition string_rev (s : string) : string := string_rev_onto s EmptyString.

Definition trimEnd (s : string) : string := string_rev (trimStart (string_rev s)).

(** [s.trim()] *)
Definition trim (s : string) : string := trimEnd (trimStart s).

(** ** Values, classes and enum objects *)

Inductive JSValue : Type :=
| VNull
| VBool (b : bool)
| VNumber (n : Z)
| VString (s : string).

(** A caller-supplied function (resolver, hook, method body). *)
Definition JSFunction : Type := nat.

(** A class (constructor function): [c_id] stands for its identity,
    [c_source] for the text [String(c)] gives, [c_proto] for
    [Object.getPrototypeOf(c)] when that is a class ([None] when it is
    [Function.prototype]). *)
Inductive Class : Type :=
| mkClass (c_id : nat) (c_name : string) (c_source : string) (c_proto : option Class).

Definition c_id (c : Class) : nat := let '(mkClass i _ _ _) := c in i.
Definition c_name (c : Class) : string := let '(mkClass _ n _ _) := c in n.
Definition c_source (c : Class) : string := let '(mkClass _ _ s _) := c in s.
Definition c_proto (c : Class) : option Class := let '(mkClass _ _ _ p) := c in p.

(** [a === b] on classes. *)
Fixpoint class_eqb (a b : Class) : bool :=
  match a, b with
  | mkClass i n s p, mkClass i' n' s' p' =>
      (i =? i')%nat && String.eqb n n' && String.eqb s s' &&
      match p, p' with
      | None, None => true
      | Some q, Some q' => class_eqb q q'
      | _, _ => false
      end
  end.

(** A TypeScript enum object: its identity and its own enumerable entries. *)
Record EnumObject : Type := mkEnumObject {
  e_id : nat;
  e_entries : Hash.t JSValue
}.

Definition JSValue_eqb (a b : JSValue) : bool :=
  match a, b with
  | VNull, VNull => true
  | VBool x, VBool y => Bool.eqb x y
  | VNumber x, VNumber y => Z.eqb x y
  | VString x, VString y => String.eqb x y
  | _, _ => false
  end.

Fixpoint entries_eqb (a b : Hash.t JSValue) : bool :=
  match a, b with
  | [], [] => true
  | (k, v) :: a', (k', v') :: b' =>
      String.eqb k k' && JSValue_eqb v v' && entries_eqb a' b'
  | _, _ => false
  end.

(** [a === b] on enum objects. *)
Definition enum_eqb (a b : EnumObject) : bool :=
  (e_id a =? e_id b)%nat && entries_eqb (e_entries a) (e_entries b).

(** ** src/util/tree.ts *)

(** The recursive helper [getPrototypeOf] of [getInheritanceTree]: the
    prototypes pushed after the entity itself. *)
Fixpoint getPrototypeOf (object : Class) : list Class :=
  match object with
  | mkClass _ _ _ (Some proto) =>
      if (0 <? String.length (c_name proto))%nat
      then proto :: getPrototypeOf proto
      else []
  | mkClass _ _ _ None => []
  end.

Definition getInheritanceTree (entity : Class) : list Class :=
  entity :: getPrototypeOf entity.

(** ** GraphQL types, as far as the builder looks into them *)

(** A type object.  The named types the builder materialises itself are
    referred to by the table they sit in and their name; [GUndefined] is the
    [undefined] a missing table entry yields; [GForeign] is an object that is
    no GraphQL type and that a converter hands through unchanged. *)
Inductive GraphQLType : Type :=
| GNamed (name : string)
| GEnumRef (name : string)
| GInterfaceRef (name : string)
| GScalarRef (name : string)
| GObjectRef (name : string)
| GInputRef (name : string)
| GUndefined
| GForeign (tag : string)
| GraphQLNonNull (ofType : GraphQLType)
| GraphQLList (ofType : GraphQLType).

(** [type instanceof GraphQLNonNull] *)
Definition instanceofNonNull (type : GraphQLType) : bool :=
  match type with GraphQLNonNull _ => true | _ => false end.

(** ** src/types.ts *)

(** [OutputType] and [InputType]: a thunk returning a class, a GraphQL type,
    a name, or any other object (an enum object, or a plain record). *)
Inductive OutputType : Type :=
| TThunk (returns : Class)
| TName (name : string)
| TEnumObject (e : EnumObject)
| TGraphQL (type : GraphQLType)
| TPlainObject (tag : string).

Definition InputType : Type := OutputType.

Record ArgumentInfo : Type := mkArgumentInfo {
  a_type : InputType;
  a_defaultValue : option JSValue;
  a_description : option string
}.

(** [FieldInfo]; [f_type = None] stands for a record without the key [type],
    the state [getOrAddField] creates a record in. *)
Record FieldInfo : Type := mkFieldInfo {
  f_name : option string;
  f_type : option OutputType;
  f_args : option (Hash.t ArgumentInfo);
  f_resolver : option JSFunction;
  f_description : option string;
  f_list : bool;
  f_nonNull : bool;
  f_nonNullItems : bool
}.

Record ResolverConfig : Type := mkResolverConfig {
  rc_args : option (Hash.t ArgumentInfo);
  rc_resolve : option JSFunction;
  rc_subscribe : option JSFunction;
  rc_description : option string
}.

(** [ResolverInfo]: [r_type] is [FieldInfo | OutputType]. *)
Record ResolverInfo : Type := mkResolverInfo {
  r_type : FieldInfo + OutputType;
  r_config : ResolverConfig
}.

Inductive Kind : Type := KInterface | KType | KInput | KScalar.

(** An entry of the list an [interfaces] thunk returns. *)
Inductive InterfaceRef : Type :=
| IString (name : string)
| IClass (c : Class)
| IObject (name : string).

Record GraphQLScalarType : Type := mkScalar {
  sc_name : string;
  sc_description : option string;
  sc_serialize : JSFunction;
  sc_parseValue : option JSFunction;
  sc_parseLiteral : option JSFunction
}.

Record TypeInfo : Type := mkTypeInfo {
  ti_name : string;
  ti_kind : option Kind;
  ti_target : option Class;
  ti_scalar : option GraphQLScalarType;
  ti_description : option string;
  ti_interfaces : option (list InterfaceRef);
  ti_isTypeOf : option JSFunction;
  ti_resolveType : option JSFunction;
  ti_fields : Hash.t FieldInfo;
  ti_queries : Hash.t ResolverInfo;
  ti_mutations : Hash.t ResolverInfo;
  ti_subscriptions : Hash.t ResolverInfo
}.

Record EnumValueInfo : Type := mkEnumValueInfo {
  ev_value : option JSValue;
  ev_description : option string;
  ev_deprecationReason : option string
}.

Record EnumInfo : Type := mkEnumInfo {
  ei_name : string;
  ei_description : option string;
  ei_target : EnumObject;
  ei_values : Hash.t EnumValueInfo
}.

Record EnumDecorationArguments : Type := mkEnumArgs {
  ea_name : option string;
  ea_description : option string;
  ea_values : option (Hash.t EnumValueInfo)
}.

Record ResolverArguments : Type := mkResolverArgs {
  ra_returnType : FieldInfo + OutputType;
  ra_description : option string;
  ra_args : option (Hash.t ArgumentInfo);
  ra_subscribe : option JSFunction
}.

Record ScalarArguments : Type := mkScalarArgs {
  sa_description : option string;
  sa_serialize : JSFunction;
  sa_parseValue : option JSFunction;
  sa_parseLiteral : option JSFunction
}.

(** [InterfaceArguments], [TypeArguments] and [InputArguments] in one record;
    each decorator reads the keys of its own type. *)
Record ClassArguments : Type := mkClassArgs {
  ca_description : option string;
  ca_interfaces : option (list InterfaceRef);
  ca_resolveType : option JSFunction;
  ca_isTypeOf : option JSFunction
}.

(** *** Assignments to one key of a record *)

Definition set_f_type (v : option OutputType) (f : FieldInfo) : FieldInfo :=
  mkFieldInfo (f_name f) v (f_args f) (f_resolver f) (f_description f)
              (f_list f) (f_nonNull f) (f_nonNullItems f).
Definition set_f_args (v : option (Hash.t ArgumentInfo)) (f : FieldInfo) : FieldInfo :=
  mkFieldInfo (f_name f) (f_type f) v (f_resolver f) (f_description f)
              (f_list f) (f_nonNull f) (f_nonNullItems f).
Definition set_f_resolver (v : option JSFunction) (f : FieldInfo) : FieldInfo :=
  mkFieldInfo (f_name f) (f_type f) (f_args f) v (f_description f)
              (f_list f) (f_nonNull f) (f_nonNullItems f).
Definition set_f_description (v : option string) (f : FieldInfo) : FieldInfo :=
  mkFieldInfo (f_name f) (f_type f) (f_args f) (f_resolver f) v
              (f_list f) (f_nonNull f) (f_nonNullItems f).
Definition set_f_list (v : bool) (f : FieldInfo) : FieldInfo :=
  mkFieldInfo (f_name f) (f_type f) (f_args f) (f_resolver f) (f_description f)
              v (f_nonNull f) (f_nonNullItems f).
Definition set_f_nonNull (v : bool) (f : FieldInfo) : FieldInfo :=
  mkFieldInfo (f_name f) (f_type f) (f_args f) (f_resolver f) (f_description f)
              (f_list f) v (f_nonNullItems f).
Definition set_f_nonNullItems (v : bool) (f : FieldInfo) : FieldInfo :=
  mkFieldInfo (f_name f) (f_type f) (f_args f) (f_resolver f) (f_description f)
              (f_list f) (f_nonNull f) v.

Definition set_ti_kind (v : option Kind) (t : TypeInfo) : TypeInfo :=
  mkTypeInfo (ti_name t) v (ti_target t) (ti_scalar t) (ti_description t)
             (ti_interfaces t) (ti_isTypeOf t) (ti_resolveType t) (ti_fields t)
             (ti_queries t) (ti_mutations t) (ti_subscriptions t).
Definition set_ti_target (v : option Class) (t : TypeInfo) : TypeInfo :=
  mkTypeInfo (ti_name t) (ti_kind t) v (ti_scalar t) (ti_description t)
             (ti_interfaces t) (ti_isTypeOf t) (ti_resolveType t) (ti_fields t)
             (ti_queries t) (ti_mutations t) (ti_subscriptions t).
Definition set_ti_scalar (v : option GraphQLScalarType) (t : TypeInfo) : TypeInfo :=
  mkTypeInfo (ti_name t) (ti_kind t) (ti_target t) v (ti_description t)
             (ti_interfaces t) (ti_isTypeOf t) (ti_resolveType t) (ti_fields t)
             (ti_queries t) (ti_mutations t) (ti_subscriptions t).
Definition set_ti_description (v : option string) (t : TypeInfo) : TypeInfo :=
  mkTypeInfo (ti_name t) (ti_kind t) (ti_target t) (ti_scalar t) v
             (ti_interfaces t) (ti_isTypeOf t) (ti_resolveType t) (ti_fields t)
             (ti_queries t) (ti_mutations t) (ti_subscriptions t).
Definition set_ti_interfaces (v : option (list InterfaceRef)) (t : TypeInfo) : TypeInfo :=
  mkTypeInfo (ti_name t) (ti_kind t) (ti_target t) (ti_scalar t) (ti_description t)
             v (ti_isTypeOf t) (ti_resolveType t) (ti_fields t)
             (ti_queries t) (ti_mutations t) (ti_subscriptions t).
Definition set_ti_isTypeOf (v : option JSFunction) (t : TypeInfo) : TypeInfo :=
  mkTypeInfo (ti_name t) (ti_kind t) (ti_target t) (ti_scalar t) (ti_description t)
             (ti_interfaces t) v (ti_resolveType t) (ti_fields t)
             (ti_queries t) (ti_mutations t) (ti_subscriptions t).
Definition set_ti_resolveType (v : option JSFunction) (t : TypeInfo) : TypeInfo :=
  mkTypeInfo (ti_name t) (ti_kind t) (ti_target t) (ti_scalar t) (ti_description t)
             (ti_interfaces t) (ti_isTypeOf t) v (ti_fields t)
             (ti_queries t) (ti_mutations t) (ti_subscriptions t).
Definition set_ti_fields (v : Hash.t FieldInfo) (t : TypeInfo) : TypeInfo :=
  mkTypeInfo (ti_name t) (ti_kind t) (ti_target t) (ti_scalar t) (ti_description t)
             (ti_interfaces t) (ti_isTypeOf t) (ti_resolveType t) v
             (ti_queries t) (ti_mutations t) (ti_subscriptions t).
Definition set_ti_queries (v : Hash.t ResolverInfo) (t : TypeInfo) : TypeInfo :=
  mkTypeInfo (ti_name t) (ti_kind t) (ti_target t) (ti_scalar t) (ti_description t)
             (ti_interfaces t) (ti_isTypeOf t) (ti_resolveType t) (ti_fields t)
             v (ti_mutations t) (ti_subscriptions t).
Definition set_ti_mutations (v : Hash.t ResolverInfo) (t : TypeInfo) : TypeInfo :=
  mkTypeInfo (ti_name t) (ti_kind t) (ti_target t) (ti_scalar t) (ti_description t)
             (ti_interfaces t) (ti_isTypeOf t) (ti_resolveType t) (ti_fields t)
             (ti_queries t) v (ti_subscriptions t).
Definition set_ti_subscriptions (v : Hash.t ResolverInfo) (t : TypeInfo) : TypeInfo :=
  mkTypeInfo (ti_name t) (ti_kind t) (ti_target t) (ti_scalar t) (ti_description t)
             (ti_interfaces t) (ti_isTypeOf t) (ti_resolveType t) (ti_fields t)
             (ti_queries t) (ti_mutations t) v.

Definition set_ei_description (v : option string) (e : EnumInfo) : EnumInfo :=
  mkEnumInfo (ei_name e) v (ei_target e) (ei_values e).
Definition set_ei_values (v : Hash.t EnumValueInfo) (e : EnumInfo) : EnumInfo :=
  mkEnumInfo (ei_name e) (ei_description e) (ei_target e) v.
Definition set_ev_description (v : option string) (e : EnumValueInfo) : EnumValueInfo :=
  mkEnumValueInfo (ev_value e) v (ev_deprecationReason e).
Definition set_ev_deprecationReason (v : option string) (e : EnumValueInfo) : EnumValueInfo :=
  mkEnumValueInfo (ev_value e) (ev_description e) v.

(** ** The builder's state and the monad its methods run in *)

(** The two private stores of [SchemaBuilder]: [_types], and the
    identity-keyed [Map] [_enums], in insertion order. *)
Record SchemaBuilder : Type := mkBuilder {
  _types : Hash.t TypeInfo;
  _enums : list (EnumObject * EnumInfo)
}.

(** [new SchemaBuilder()] *)
Definition newSchemaBuilder : SchemaBuilder := mkBuilder [] [].

Definition M (A : Type) : Type := SchemaBuilder -> Result A * SchemaBuilder.

Definition ret {A : Type} (a : A) : M A := fun b => (Ok a, b).

Definition bind {A B : Type} (m : M A) (k : A -> M B) : M B :=
  fun b =>
    match m b with
    | (Ok a, b') => k a b'
    | (Throw e, b') => (Throw e, b')
    end.

Definition throw {A : Type} (e : JSError) : M A := fun b => (Throw e, b).

Definition gets {A : Type} (f : SchemaBuilder -> A) : M A := fun b => (Ok (f b), b).

Definition modify (f : SchemaBuilder -> SchemaBuilder) : M unit := fun b => (Ok tt, f b).

Definition liftResult {A : Type} (r : Result A) : M A := fun b => (r, b).

Declare Scope builder_scope.
Delimit Scope builder_scope with builder.
Notation "x <- m ;; k" := (bind m (fun x => k))
  (at level 61, m at next level, right associativity) : builder_scope.
Notation "m ;;; k" := (bind m (fun _ => k))
  (at level 61, right associativity) : builder_scope.
Open Scope builder_scope.

(** [xs.forEach] with an accumulator, and [xs.map], over effectful bodies. *)
Fixpoint foldM {A B : Type} (f : B -> A -> M B) (xs : list A) (acc : B) : M B :=
  match xs with
  | [] => ret acc
  | x :: xs' => acc' <- f acc x ;; foldM f xs' acc'
  end.

Fixpoint mapM {A B : Type} (f : A -> M B) (xs : list A) : M (list B) :=
  match xs with
  | [] => ret []
  | x :: xs' => y <- f x ;; ys <- mapM f xs' ;; ret (y :: ys)
  end.

(** [xs.forEach(f)] for a body that only acts on the builder. *)
Fixpoint forEachM {A : Type} (f : A -> M unit) (xs : list A) : M unit :=
  match xs with
  | [] => ret tt
  | x :: xs' => f x ;;; forEachM f xs'
  end.

(** *** The identity-keyed map of enums *)

Module EnumMap.

Definition t : Type := list (EnumObject * EnumInfo).

(** [m.get(k)] *)
Fixpoint get (m : t) (k : EnumObject) : option EnumInfo :=
  match m with
  | [] => None
  | (k', v) :: m' => if enum_eqb k k' then Some v else get m' k
  end.

(** [m.has(k)] *)
Definition has (m : t) (k : EnumObject) : bool :=
  match get m k with Some _ => true | None => false end.

(** [m.set(k, v)] *)
Fixpoint set (m : t) (k : EnumObject) (v : EnumInfo) : t :=
  match m with
  | [] => [(k, v)]
  | (k', v') :: m' =>
      if enum_eqb k k' then (k', v) :: m' else (k', v') :: set m' k v
  end.

End EnumMap.

(** *** The protected methods of [SchemaBuilder] *)

Definition set_types (v : Hash.t TypeInfo) (b : SchemaBuilder) : SchemaBuilder :=
  mkBuilder v (_enums b).
Definition set_enums (v : EnumMap.t) (b : SchemaBuilder) : SchemaBuilder :=
  mkBuilder (_types b) v.

Definition targetIs (target : Class) (type : TypeInfo) : bool :=
  match ti_target type with
  | Some c => class_eqb c target
  | None => false
  end.

Definition findByClass (target : Class) : M (option TypeInfo) :=
  gets (fun b => find (targetIs target) (map snd (_types b))).

(** [{ name, fields: {}, queries: {}, mutations: {}, subscriptions: {} }] *)
Definition emptyType (name : string) : TypeInfo :=
  mkTypeInfo name None None None None None None None [] [] [] [].

Definition getOrAddType (name : string) : M TypeInfo :=
  fun b =>
    let type := match Hash.get (_types b) name with
                | Some type => type
                | None => emptyType name
                end in
    (Ok type, set_types (Hash.set (_types b) name type) b).

(** An assignment through the reference [getOrAddType] returned: the record
    stored under [name] is updated in place. *)
Definition assignType (name : string) (f : TypeInfo -> TypeInfo) : M unit :=
  modify (fun b =>
    match Hash.get (_types b) name with
    | Some type => set_types (Hash.set (_types b) name (f type)) b
    | None => b
    end).

(** [{ name }] *)
Definition emptyField (name : string) : FieldInfo :=
  mkFieldInfo (Some name) None None None None false false false.

Definition getOrAddField (typeName name : string) : M FieldInfo :=
  type <- getOrAddType typeName ;;
  let field := match Hash.get (ti_fields type) name with
               | Some field => field
               | None => emptyField name
               end in
  assignType typeName (fun t => set_ti_fields (Hash.set (ti_fields t) name field) t) ;;;
  ret field.

(** An assignment through the reference [getOrAddField] returned. *)
Definition assignField (typeName name : string) (f : FieldInfo -> FieldInfo) : M unit :=
  assignType typeName (fun t =>
    match Hash.get (ti_fields t) name with
    | Some field => set_ti_fields (Hash.set (ti_fields t) name (f field)) t
    | None => t
    end).

(** [`Invalid name specified for enum '${name}'`] *)
Definition invalidEnumName (name : option string) : string :=
  ("Invalid name specified for enum '" ++
   match name with Some n => n | None => "undefined" end ++ "'")%string.

Definition getOrAddEnum (_enum : EnumObject) (name : option string) : M EnumInfo :=
  match name with
  | None => throw (Error (invalidEnumName name))
  | Some n =>
      if (String.length n =? 0) || (String.length (trim n) =? 0)
      then throw (Error (invalidEnumName name))
      else
        enums <- gets _enums ;;
        match EnumMap.get enums _enum with
        | Some info => ret info
        | None =>
            values <- liftResult
                        (reduce1 Hash.spread
                           (map (fun nv => Hash.single (fst nv)
                                             (mkEnumValueInfo (Some (snd nv)) None None))
                                (e_entries _enum))) ;;
            let info := mkEnumInfo (trim n) None _enum values in
            modify (fun b => set_enums (EnumMap.set (_enums b) _enum info) b) ;;;
            ret info
        end
  end.

(** An assignment through the reference [getOrAddEnum] returned. *)
Definition assignEnum (_enum : EnumObject) (f : EnumInfo -> EnumInfo) : M unit :=
  modify (fun b =>
    match EnumMap.get (_enums b) _enum with
    | Some info => set_enums (EnumMap.set (_enums b) _enum (f info)) b
    | None => b
    end).

Definition hasType (name : string) : M bool :=
  gets (fun b => Hash.has (_types b) name).

Definition hasEnum (_enum : EnumObject) : M bool :=
  gets (fun b => EnumMap.has (_enums b) _enum).

(** The getters [types] and [enums]. *)
Definition types : M (Hash.t TypeInfo) := gets _types.
Definition enums : M EnumMap.t := gets _enums.

(** ** The declaration API

    A property or method decorator receives [object] and the member's name
    and reads [object.constructor.name]; it is given [object.constructor]
    here.  A class decorator receives the class. *)

Module Decorators.

(** [builder.getOrAddField(typeName, name).key = value] *)
Definition onField (typeName name : string) (f : FieldInfo -> FieldInfo) : M unit :=
  getOrAddField typeName name ;;; assignField typeName name f.

Definition description (text : string) (constructor : Class) (propertyName : string)
  : M unit :=
  onField (c_name constructor) propertyName (set_f_description (Some text)).

Definition isInput (kind : option Kind) : bool :=
  match kind with Some KInput => true | _ => false end.

Definition field (type : OutputType) (args : option (option (Hash.t ArgumentInfo)))
           (constructor : Class) (propertyName : string) : M unit :=
  target <- getOrAddType (c_name constructor) ;;
  onField (c_name constructor) propertyName (set_f_type (Some type)) ;;;
  match args with
  | Some a =>
      if negb (isInput (ti_kind target))
      then onField (c_name constructor) propertyName (set_f_args a)
      else ret tt
  | None => ret tt
  end.

Definition resolve (resolver : JSFunction) (constructor : Class) (propertyName : string)
  : M unit :=
  onField (c_name constructor) propertyName (set_f_resolver (Some resolver)).

Definition nonNull (constructor : Class) (propertyName : string) : M unit :=
  onField (c_name constructor) propertyName (set_f_nonNull true).

Definition nonNullItems (constructor : Class) (propertyName : string) : M unit :=
  onField (c_name constructor) propertyName (set_f_nonNullItems true).

Definition interface (args : option ClassArguments) (object : Class) : M unit :=
  getOrAddType (c_name object) ;;;
  assignType (c_name object) (set_ti_kind (Some KInterface)) ;;;
  assignType (c_name object) (set_ti_target (Some object)) ;;;
  match args with
  | Some a =>
      assignType (c_name object) (set_ti_description (ca_description a)) ;;;
      assignType (c_name object) (set_ti_interfaces (ca_interfaces a)) ;;;
      assignType (c_name object) (set_ti_resolveType (ca_resolveType a))
  | None => ret tt
  end.

Definition type (args : option ClassArguments) (object : Class) : M unit :=
  getOrAddType (c_name object) ;;;
  assignType (c_name object) (set_ti_kind (Some KType)) ;;;
  assignType (c_name object) (set_ti_target (Some object)) ;;;
  match args with
  | Some a =>
      assignType (c_name object) (set_ti_description (ca_description a)) ;;;
      assignType (c_name object) (set_ti_interfaces (ca_interfaces a)) ;;;
      assignType (c_name object) (set_ti_isTypeOf (ca_isTypeOf a))
  | None => ret tt
  end.

Definition input (args : option ClassArguments) (object : Class) : M unit :=
  getOrAddType (c_name object) ;;;
  assignType (c_name object) (set_ti_kind (Some KInput)) ;;;
  assignType (c_name object) (set_ti_target (Some object)) ;;;
  match args with
  | Some a => assignType (c_name object) (set_ti_description (ca_description a))
  | None => ret tt
  end.

Definition resolverInfo (args : ResolverArguments) (resolve : option JSFunction)
           (subscribe : option JSFunction) : ResolverInfo :=
  mkResolverInfo (ra_returnType args)
                 (mkResolverConfig (ra_args args) resolve subscribe (ra_description args)).

Definition query (args : ResolverArguments) (constructor : Class) (methodName : string)
           (descriptorValue : option JSFunction) : M unit :=
  getOrAddType (c_name constructor) ;;;
  assignType (c_name constructor) (fun t =>
    set_ti_queries (Hash.set (ti_queries t) methodName
                      (resolverInfo args descriptorValue None)) t).

Definition mutation (args : ResolverArguments) (constructor : Class) (methodName : string)
           (descriptorValue : option JSFunction) : M unit :=
  getOrAddType (c_name constructor) ;;;
  assignType (c_name constructor) (fun t =>
    set_ti_mutations (Hash.set (ti_mutations t) methodName
                        (resolverInfo args descriptorValue None)) t).

Definition subscription (args : ResolverArguments) (constructor : Class)
           (methodName : string) (descriptorValue : option JSFunction) : M unit :=
  getOrAddType (c_name constructor) ;;;
  assignType (c_name constructor) (fun t =>
    set_ti_subscriptions (Hash.set (ti_subscriptions t) methodName
                            (resolverInfo args descriptorValue (ra_subscribe args))) t).

(** The body of the [forEach] of [decorateEnum], for one entry of
    [args.values]. *)
Definition decorateValue (name : string) (value : EnumValueInfo) (info : EnumInfo)
  : EnumInfo :=
  let current := match Hash.get (ei_values info) name with
                 | Some v => v
                 | None => mkEnumValueInfo None None None
                 end in
  set_ei_values
    (Hash.set (ei_values info) name
       (set_ev_deprecationReason (ev_deprecationReason value)
          (set_ev_description (ev_description value) current)))
    info.

Definition decorateEnum (object : EnumObject) (args : EnumDecorationArguments) : M unit :=
  getOrAddEnum object (ea_name args) ;;;
  assignEnum object (set_ei_description (ea_description args)) ;;;
  match ea_values args with
  | Some values =>
      forEachM (fun nv => assignEnum object (decorateValue (fst nv) (snd nv))) values
  | None => ret tt
  end.

Definition scalar (args : ScalarArguments) (object : Class) : M unit :=
  getOrAddType (c_name object) ;;;
  assignType (c_name object) (set_ti_kind (Some KScalar)) ;;;
  assignType (c_name object) (set_ti_target (Some object)) ;;;
  assignType (c_name object)
    (set_ti_scalar (Some (mkScalar (c_name object) (sa_description args)
                            (sa_serialize args) (sa_parseValue args)
                            (sa_parseLiteral args)))).

Definition list (type : OutputType) (args : option (option (Hash.t ArgumentInfo)))
           (constructor : Class) (propertyName : string) : M unit :=
  onField (c_name constructor) propertyName (set_f_type (Some type)) ;;;
  onField (c_name constructor) propertyName (set_f_list true) ;;;
  match args with
  | Some a => onField (c_name constructor) propertyName (set_f_args a)
  | None => ret tt
  end.

End Decorators.

(** ** What [build] constructs *)

Record GraphQLEnumValueConfig : Type := mkEnumValueConfig {
  evc_value : option JSValue;
  evc_description : option string;
  evc_deprecationReason : option string
}.

Record GraphQLEnumType : Type := mkEnumType {
  et_name : string;
  et_description : option string;
  et_values : Hash.t GraphQLEnumValueConfig
}.

Record GraphQLArgumentConfig : Type := mkArgumentConfig {
  ac_type : GraphQLType;
  ac_defaultValue : option JSValue;
  ac_description : option string
}.

Record GraphQLFieldConfig : Type := mkFieldConfig {
  fc_name : option string;
  fc_type : GraphQLType;
  fc_args : option (Hash.t GraphQLArgumentConfig);
  fc_resolve : option JSFunction;
  fc_subscribe : option JSFunction;
  fc_description : option string
}.

(** The two converters a [fields] thunk can have captured. *)
Inductive Converter : Type := ConvertOutputType | ConvertInputType.

(** A [fields] thunk: the closure [getFields(converter)] made for the
    record [info], or [() => fields] for a root object. *)
Inductive FieldsThunk : Type :=
| GetFields (info : TypeInfo) (converter : Converter)
| ConstFields (fields : Hash.t GraphQLFieldConfig).

Record GraphQLInputObjectType : Type := mkInputObjectType {
  it_name : string;
  it_description : option string;
  it_fields : FieldsThunk
}.

Record GraphQLInterfaceType : Type := mkInterfaceType {
  if_name : string;
  if_description : option string;
  if_resolveType : option JSFunction;
  if_fields : FieldsThunk
}.

(** [ot_interfaces]: the record [info] the [interfaces] thunk captured,
    [None] where the constructor was given no such thunk. *)
Record GraphQLObjectType : Type := mkObjectType {
  ot_name : string;
  ot_description : option string;
  ot_isTypeOf : option JSFunction;
  ot_fields : FieldsThunk;
  ot_interfaces : option TypeInfo
}.

(** The local tables of [build]. *)
Record Tables : Type := mkTables {
  tb_interfaces : Hash.t GraphQLInterfaceType;
  tb_objects : Hash.t GraphQLObjectType;
  tb_inputs : Hash.t GraphQLInputObjectType;
  tb_enums : Hash.t GraphQLEnumType;
  tb_scalars : Hash.t (option GraphQLScalarType)
}.

(** The configuration given to [new GraphQLSchema], with the tables its
    types refer into. *)
Record GraphQLSchema : Type := mkSchema {
  s_query : option GraphQLObjectType;
  s_mutation : option GraphQLObjectType;
  s_subscription : option GraphQLObjectType;
  s_tables : Tables
}.

(** ** [build] *)

Section Build.

(** The tables as the closures below see them when they run. *)
Variable tables : Tables.

(** [`Type '${name}' not defined`] *)
Definition typeNotDefined (name : string) : string :=
  ("Type '" ++ name ++ "' not defined")%string.

Definition isSome {A : Type} (o : option A) : bool :=
  match o with Some _ => true | None => false end.

(** [scalars[name]] as a condition. *)
Definition hasScalar (name : string) : bool :=
  match Hash.get (tb_scalars tables) name with
  | Some (Some _) => true
  | _ => false
  end.

(** The tail of [convertOutputType], once [name] is known. *)
Definition outputTypeNamed (name : string) : M GraphQLType :=
  if isSome (Hash.get (tb_enums tables) name) then ret (GEnumRef name)
  else if isSome (Hash.get (tb_interfaces tables) name) then ret (GInterfaceRef name)
  else if hasScalar name then ret (GScalarRef name)
  else
    known <- hasType name ;;
    if negb known then throw (Error (typeNotDefined name))
    else ret (if isSome (Hash.get (tb_objects tables) name)
              then GObjectRef name else GUndefined).

(** [enums[name]] as a value. *)
Definition enumNamed (name : string) : GraphQLType :=
  if isSome (Hash.get (tb_enums tables) name) then GEnumRef name else GUndefined.

Definition convertOutputType (type : OutputType) : M GraphQLType :=
  match type with
  | TThunk c => outputTypeNamed (c_name c)
  | TName name => outputTypeNamed name
  | TEnumObject e =>
      registered <- hasEnum e ;;
      if registered then
        es <- enums ;;
        match EnumMap.get es e with
        | Some info => ret (enumNamed (ei_name info))
        | None => throw (TypeError "Cannot read property 'name' of undefined")
        end
      else ret (GForeign "enum")
  | TGraphQL t => ret t
  | TPlainObject tag => ret (GForeign tag)
  end.

(** The tail of [convertInputType], once [name] is known. *)
Definition inputTypeNamed (name : string) : M GraphQLType :=
  if isSome (Hash.get (tb_enums tables) name) then ret (GEnumRef name)
  else if hasScalar name then ret (GScalarRef name)
  else ret (if isSome (Hash.get (tb_inputs tables) name)
            then GInputRef name else GUndefined).

Definition convertInputType (type : InputType) : M GraphQLType :=
  match type with
  | TThunk c => inputTypeNamed (c_name c)
  | TName name => inputTypeNamed name
  | TEnumObject e =>
      registered <- hasEnum e ;;
      if registered then
        es <- enums ;;
        match EnumMap.get es e with
        | Some info => inputTypeNamed (ei_name info)
        | None => throw (TypeError "Cannot read property 'name' of undefined")
        end
      else ret (GForeign "enum")
  | TGraphQL t => ret t
  | TPlainObject tag => ret (GForeign tag)
  end.

(** A field record without the key [type], seen as the plain object it is. *)
Definition recordAsObject (fieldInfo : FieldInfo) : OutputType :=
  TPlainObject match f_name fieldInfo with Some n => n | None => EmptyString end.

(** The test [typeof fieldInfo === 'object' && 'type' in fieldInfo] tells a
    field record with a [type] from a bare type reference: it is the tag of
    the sum here, together with the presence of [f_type].  (An enum object
    with a member called [type] would pass for a record; the sum leaves that
    out.) *)
Definition convertFieldInfoToType (fieldInfo : FieldInfo + OutputType)
           (converter : OutputType -> M GraphQLType) : M GraphQLType :=
  match fieldInfo with
  | inl info =>
      match f_type info with
      | Some t =>
          type <- converter t ;;
          let type := if f_nonNullItems info then GraphQLNonNull type else type in
          let type := if f_list info then GraphQLList type else type in
          let type := if f_nonNull info && negb (instanceofNonNull type)
                      then GraphQLNonNull type else type in
          ret type
      | None => converter (recordAsObject info)
      end
  | inr type => converter type
  end.

Definition convertArguments (args : Hash.t ArgumentInfo)
  : M (Hash.t GraphQLArgumentConfig) :=
  converted <- mapM (fun na =>
                 type <- convertInputType (a_type (snd na)) ;;
                 ret (Hash.single (fst na)
                        (mkArgumentConfig type (a_defaultValue (snd na))
                                          (a_description (snd na)))))
               args ;;
  ret (fold_left Hash.spread converted []).

Definition runConverter (converter : Converter) : OutputType -> M GraphQLType :=
  match converter with
  | ConvertOutputType => convertOutputType
  | ConvertInputType => convertInputType
  end.

(** [xs.filter(x => !!x)] after a [map] that may yield [undefined]. *)
Fixpoint defined {A : Type} (xs : list (option A)) : list A :=
  match xs with
  | [] => []
  | Some x :: xs' => x :: defined xs'
  | None :: xs' => defined xs'
  end.

(** The field records a type ends up with: the first statements of the
    function [getFields] returns (the local [fields], as a map). *)
Definition inheritedFields (info : TypeInfo) : M (Hash.t FieldInfo) :=
  match ti_target info with
  | None => throw (TypeError "Cannot convert undefined or null to object")
  | Some target =>
      parents <- mapM findByClass (rev (getInheritanceTree target)) ;;
      ret (fold_left Hash.spread (map ti_fields (defined parents)) [])
  end.

(** The function [getFields(converter)] returns, for the record [info]. *)
Definition getFields (info : TypeInfo) (converter : Converter)
  : M (Hash.t GraphQLFieldConfig) :=
  fields <- inheritedFields info ;;
  converted <- mapM (fun nf =>
                 let name := fst nf in
                 let fieldInfo := snd nf in
                 type <- convertFieldInfoToType (inl fieldInfo) (runConverter converter) ;;
                 args <- match f_args fieldInfo with
                         | Some a => a' <- convertArguments a ;; ret (Some a')
                         | None => ret None
                         end ;;
                 ret (Hash.single name
                        (mkFieldConfig (Some name) type args
                           (if Decorators.isInput (ti_kind info) then None
                            else f_resolver fieldInfo)
                           None (f_description fieldInfo))))
               fields ;;
  ret (fold_left Hash.spread converted []).

(** Forcing a [fields] thunk. *)
Definition forceFields (thunk : FieldsThunk) : M (Hash.t GraphQLFieldConfig) :=
  match thunk with
  | GetFields info converter => getFields info converter
  | ConstFields fields => ret fields
  end.

(** [String(_interface)] *)
Definition refToString (r : InterfaceRef) : string :=
  match r with
  | IString name => name
  | IClass c => c_source c
  | IObject name => name
  end.

(** [`Interface '${_interface}' not defined`] *)
Definition interfaceNotDefined (r : InterfaceRef) : string :=
  ("Interface '" ++ refToString r ++ "' not defined")%string.

(** The callback of the [map] in the [interfaces] thunk. *)
Definition resolveInterface (r : InterfaceRef) : M GraphQLType :=
  match r with
  | IString name =>
      if isSome (Hash.get (tb_interfaces tables) name)
      then ret (GInterfaceRef name)
      else throw (Error (interfaceNotDefined r))
  | IClass c =>
      if isSome (Hash.get (tb_interfaces tables) (c_name c))
      then ret (GInterfaceRef (c_name c))
      else throw (Error (interfaceNotDefined r))
  | IObject _ => throw (Error (interfaceNotDefined r))
  end.

(** The [interfaces] thunk of the object type made for [info]. *)
Definition getInterfaces (info : TypeInfo) : M (list GraphQLType) :=
  match ti_interfaces info with
  | Some refs => mapM resolveInterface refs
  | None => ret []
  end.

(** The body of the three inner loops of the root assembly. *)
Definition convertOperation (value : ResolverInfo) : M GraphQLFieldConfig :=
  type <- convertFieldInfoToType (r_type value) convertOutputType ;;
  args <- match rc_args (r_config value) with
          | Some a => convertArguments a
          | None => ret []
          end ;;
  ret (mkFieldConfig None type (Some args) (rc_resolve (r_config value))
                     (rc_subscribe (r_config value))
                     (rc_description (r_config value))).

Definition addOperations (operations : Hash.t ResolverInfo)
           (acc : Hash.t GraphQLFieldConfig) : M (Hash.t GraphQLFieldConfig) :=
  foldM (fun acc kv =>
           config <- convertOperation (snd kv) ;;
           ret (Hash.set acc (fst kv) config))
        operations acc.

End Build.

(** The enum type [build] constructs for one record of the enum store. *)
Definition materializeEnum (e : EnumInfo) : GraphQLEnumType :=
  mkEnumType (ei_name e) (ei_description e)
    (fold_left Hash.spread
       (map (fun nv => Hash.single (fst nv)
                         (mkEnumValueConfig (ev_value (snd nv)) (ev_description (snd nv))
                                            (ev_deprecationReason (snd nv))))
            (ei_values e))
       []).

(** [builder.enums.forEach(e => { enums[e.name] = ... })] *)
Definition materializeEnums (es : EnumMap.t) : Hash.t GraphQLEnumType :=
  fold_left (fun acc ke => Hash.set acc (ei_name (snd ke)) (materializeEnum (snd ke))) es [].

(** The [switch (info.kind)] of the loop over the types. *)
Definition materializeType (tables : Tables) (entry : string * TypeInfo) : Tables :=
  let name := fst entry in
  let info := snd entry in
  match ti_kind info with
  | Some KScalar =>
      mkTables (tb_interfaces tables) (tb_objects tables) (tb_inputs tables)
               (tb_enums tables) (Hash.set (tb_scalars tables) name (ti_scalar info))
  | Some KInput =>
      mkTables (tb_interfaces tables) (tb_objects tables)
               (Hash.set (tb_inputs tables) name
                  (mkInputObjectType name (ti_description info)
                                     (GetFields info ConvertInputType)))
               (tb_enums tables) (tb_scalars tables)
  | Some KInterface =>
      mkTables (Hash.set (tb_interfaces tables) name
                  (mkInterfaceType name (ti_description info) (ti_resolveType info)
                                   (GetFields info ConvertOutputType)))
               (tb_objects tables) (tb_inputs tables) (tb_enums tables)
               (tb_scalars tables)
  | Some KType =>
      mkTables (tb_interfaces tables)
               (Hash.set (tb_objects tables) name
                  (mkObjectType name (ti_description info) (ti_isTypeOf info)
                                (GetFields info ConvertOutputType) (Some info)))
               (tb_inputs tables) (tb_enums tables) (tb_scalars tables)
  | None => tables
  end.

(** The tables once both materialisation loops are through. *)
Definition materialize (es : EnumMap.t) (ts : Hash.t TypeInfo) : Tables :=
  fold_left materializeType ts (mkTables [] [] [] (materializeEnums es) []).

(** The three local maps [queries], [mutations] and [subscriptions]. *)
Record Operations : Type := mkOperations {
  op_queries : Hash.t GraphQLFieldConfig;
  op_mutations : Hash.t GraphQLFieldConfig;
  op_subscriptions : Hash.t GraphQLFieldConfig
}.

(** The body of the outer loop of the root assembly. *)
Definition collectOperations (tables : Tables) (acc : Operations)
           (entry : string * TypeInfo) : M Operations :=
  let info := snd entry in
  queries <- addOperations tables (ti_queries info) (op_queries acc) ;;
  mutations <- addOperations tables (ti_mutations info) (op_mutations acc) ;;
  subscriptions <- addOperations tables (ti_subscriptions info) (op_subscriptions acc) ;;
  ret (mkOperations queries mutations subscriptions).

(** [new GraphQLObjectType({ name, fields: () => fields })] *)
Definition rootObject (name : string) (fields : Hash.t GraphQLFieldConfig)
  : GraphQLObjectType :=
  mkObjectType name None None (ConstFields fields) None.

(** [Object.keys(fields).length ? new GraphQLObjectType(...) : null] *)
Definition optionalRoot (name : string) (fields : Hash.t GraphQLFieldConfig)
  : option GraphQLObjectType :=
  if 0 <? length (Hash.keys fields) then Some (rootObject name fields) else None.

Definition build : M GraphQLSchema :=
  es <- enums ;;
  ts <- types ;;
  let tables := materialize es ts in
  ts' <- types ;;
  ops <- foldM (collectOperations tables) ts' (mkOperations [] [] []) ;;
  let query := rootObject "Query" (op_queries ops) in
  let mutation := optionalRoot "Mutation" (op_mutations ops) in
  let subscription := optionalRoot "Subscriptions" (op_subscriptions ops) in
  ret (mkSchema (Some query) mutation subscription tables).

(** ** Notions the statements below are phrased with *)

(** The record of a property in the registry. *)
Definition fieldRecord (b : SchemaBuilder) (typeName name : string) : option FieldInfo :=
  match Hash.get (_types b) typeName with
  | Some t => Hash.get (ti_fields t) name
  | None => None
  end.

(** The record stored under a name; an empty one if none is. *)
Definition typeRecord (b : SchemaBuilder) (typeName : string) : TypeInfo :=
  match Hash.get (_types b) typeName with
  | Some t => t
  | None => emptyType typeName
  end.

(** The record stored under the name of a class. *)
Definition infoOf (b : SchemaBuilder) (c : Class) : TypeInfo :=
  typeRecord b (c_name c).

(** The tables [build] works with on the builder [b]. *)
Definition tablesOf (b : SchemaBuilder) : Tables := materialize (_enums b) (_types b).

(** The record of an enum in the registry. *)
Definition enumRecord (b : SchemaBuilder) (object : EnumObject) : option EnumInfo :=
  EnumMap.get (_enums b) object.

(** A computation that leaves the builder as it found it. *)
Definition readOnly {A : Type} (m : M A) : Prop :=
  forall b, snd (m b) = b.


(** The condition under which the [interfaces] thunk accepts a reference. *)
Definition declaredInterface (tables : Tables) (r : InterfaceRef) : bool :=
  match r with
  | IString name => isSome (Hash.get (tb_interfaces tables) name)
  | IClass c => isSome (Hash.get (tb_interfaces tables) (c_name c))
  | IObject _ => false
  end.

(** Some enum record of the registry carries the name. *)
Definition enumNamedInRegistry (b : SchemaBuilder) (name : string) : Prop :=
  exists object info, In (object, info) (_enums b) /\ ei_name info = name.





(** The ancestors of [target] that [findByClass] locates in [b], nearest
    first. *)
Definition locatedAncestors (b : SchemaBuilder) (target : Class) : list TypeInfo :=
  defined (map (fun c => find (targetIs c) (map snd (_types b)))
               (getInheritanceTree target)).

(** The record of [name] in the nearest of [ancestors] that declares it. *)
Fixpoint nearestDeclaration (ancestors : list TypeInfo) (name : string)
  : option FieldInfo :=
  match ancestors with
  | [] => None
  | a :: rest =>
      match Hash.get (ti_fields a) name with
      | Some f => Some f
      | None => nearestDeclaration rest name
      end
  end.

(** Every object of the builder has each of its keys once. *)
Definition uniqueFieldNames (b : SchemaBuilder) : Prop :=
  forall name info, In (name, info) (_types b) -> NoDup (Hash.keys (ti_fields info)).

(** Some record of the registry holds a query, a mutation, a subscription. *)
Definition anyOperation (sel : TypeInfo -> Hash.t ResolverInfo) (b : SchemaBuilder)
  : Prop :=
  exists name info, In (name, info) (_types b) /\ sel info <> [].

(** The six property annotations, as data. *)
Inductive PropertyAnnotation : Type :=
| AField (type : OutputType) (args : option (option (Hash.t ArgumentInfo)))
| ADescription (text : string)
| AResolve (resolver : JSFunction)
| AList (type : OutputType) (args : option (option (Hash.t ArgumentInfo)))
| ANonNull
| ANonNullItems.

Definition annotate (constructor : Class) (propertyName : string)
           (a : PropertyAnnotation) : M unit :=
  match a with
  | AField type args => Decorators.field type args constructor propertyName
  | ADescription text => Decorators.description text constructor propertyName
  | AResolve resolver => Decorators.resolve resolver constructor propertyName
  | AList type args => Decorators.list type args constructor propertyName
  | ANonNull => Decorators.nonNull constructor propertyName
  | ANonNullItems => Decorators.nonNullItems constructor propertyName
  end.

Definition annotateAll (constructor : Class) (propertyName : string)
           (annotations : list PropertyAnnotation) : M unit :=
  forEachM (annotate constructor propertyName) annotations.

(** Two annotations that assign a common attribute: two of one sort, or
    [field] and [list], which both assign [type] and [args]. *)
Definition sharesAttribute (a b : PropertyAnnotation) : bool :=
  match a, b with
  | (AField _ _ | AList _ _), (AField _ _ | AList _ _) => true
  | ADescription _, ADescription _ => true
  | AResolve _, AResolve _ => true
  | ANonNull, ANonNull => true
  | ANonNullItems, ANonNullItems => true
  | _, _ => false
  end.

(** No two annotations of the list assign a common attribute. *)
Fixpoint disjointAttributes (annotations : list PropertyAnnotation) : bool :=
  match annotations with
  | [] => true
  | a :: rest =>
      forallb (fun b => negb (sharesAttribute a b)) rest && disjointAttributes rest
  end.

(** Two annotations of one sort. *)
Definition sameSort (a b : PropertyAnnotation) : bool :=
  match a, b with
  | AField _ _, AField _ _ => true
  | ADescription _, ADescription _ => true
  | AResolve _, AResolve _ => true
  | AList _ _, AList _ _ => true
  | ANonNull, ANonNull => true
  | ANonNullItems, ANonNullItems => true
  | _, _ => false
  end.

(** Each sort of annotation occurs at most once in the list. *)
Fixpoint distinctSorts (annotations : list PropertyAnnotation) : bool :=
  match annotations with
  | [] => true
  | a :: rest => forallb (fun b => negb (sameSort a b)) rest && distinctSorts rest
  end.

(** The builder once the field record [name] of [typeName], created empty
    if need be, has been rewritten by [f]. *)
Definition writeField (typeName name : string) (f : FieldInfo -> FieldInfo)
           (b : SchemaBuilder) : SchemaBuilder :=
  let t := typeRecord b typeName in
  let field := match Hash.get (ti_fields t) name with
               | Some field => field
               | None => emptyField name
               end in
  set_types (Hash.set (_types b) typeName
               (set_ti_fields (Hash.set (ti_fields t) name (f field)) t)) b.

(** What one annotation does to the field record, on a type of kind [kind]. *)
Definition effect (kind : option Kind) (a : PropertyAnnotation) (f : FieldInfo)
  : FieldInfo :=
  match a with
  | AField type args =>
      match args with
      | Some a' =>
          if negb (Decorators.isInput kind)
          then set_f_args a' (set_f_type (Some type) f)
          else set_f_type (Some type) f
      | None => set_f_type (Some type) f
      end
  | ADescription text => set_f_description (Some text) f
  | AResolve resolver => set_f_resolver (Some resolver) f
  | AList type args =>
      match args with
      | Some a' => set_f_args a' (set_f_list true (set_f_type (Some type) f))
      | None => set_f_list true (set_f_type (Some type) f)
      end
  | ANonNull => set_f_nonNull true f
  | ANonNullItems => set_f_nonNullItems true f
  end.

Definition effects (kind : option Kind) (annotations : list PropertyAnnotation)
           (f : FieldInfo) : FieldInfo :=
  fold_left (fun f a => effect kind a f) annotations f.

(** The calls of the declaration API, as data, and a program of them. *)
Inductive Declaration : Type :=
| DProperty (constructor : Class) (propertyName : string) (a : PropertyAnnotation)
| DInterface (args : option ClassArguments) (object : Class)
| DType (args : option ClassArguments) (object : Class)
| DInput (args : option ClassArguments) (object : Class)
| DScalar (args : ScalarArguments) (object : Class)
| DQuery (args : ResolverArguments) (constructor : Class) (methodName : string)
         (descriptorValue : option JSFunction)
| DMutation (args : ResolverArguments) (constructor : Class) (methodName : string)
            (descriptorValue : option JSFunction)
| DSubscription (args : ResolverArguments) (constructor : Class) (methodName : string)
                (descriptorValue : option JSFunction)
| DEnum (object : EnumObject) (args : EnumDecorationArguments).

Definition declare (d : Declaration) : M unit :=
  match d with
  | DProperty constructor propertyName a => annotate constructor propertyName a
  | DInterface args object => Decorators.interface args object
  | DType args object => Decorators.type args object
  | DInput args object => Decorators.input args object
  | DScalar args object => Decorators.scalar args object
  | DQuery args c m d => Decorators.query args c m d
  | DMutation args c m d => Decorators.mutation args c m d
  | DSubscription args c m d => Decorators.subscription args c m d
  | DEnum object args => Decorators.decorateEnum object args
  end.

(** A computation that keeps a property of the builder. *)
Definition preserves (P : SchemaBuilder -> Prop) {A : Type} (m : M A) : Prop :=
  forall b, P b -> P (snd (m b)).

(** ** Declarations used as concrete inputs *)

Module Sample.

Definition GraphQLString : GraphQLType := GNamed "String".
Definition GraphQLInt : GraphQLType := GNamed "Int".
Definition GraphQLBoolean : GraphQLType := GNamed "Boolean".

(** [enum Role { admin, moderator, user, guest }] with string values. *)
Definition Role : EnumObject :=
  mkEnumObject 1 [("admin", VString "admin"); ("moderator", VString "moderator");
                  ("user", VString "user"); ("guest", VString "guest")].

Definition describe (text : string) : EnumValueInfo :=
  mkEnumValueInfo None (Some text) None.

(** Two of the four values described. *)
Definition twoOfFour : EnumDecorationArguments :=
  mkEnumArgs (Some "Role") (Some "An enum")
             (Some [("admin", describe "An administrator.");
                    ("moderator", describe "A moderator.")]).

(** [{ name: 'Role' }] *)
Definition nameOnly : EnumDecorationArguments := mkEnumArgs (Some "Role") None None.



Definition Base : Class := mkClass 10 "Base" "class Base { }" None.
Definition Derived : Class :=
  mkClass 11 "Derived" "class Derived extends Base { }" (Some Base).
Definition Test : Class := mkClass 12 "Test" "class Test { }" None.

Definition noArgs : ResolverArguments :=
  mkResolverArgs (inr (TGraphQL GraphQLBoolean)) None None None.

(** [Base] carries a field but no class decorator; [Derived] is a type. *)
Definition undecoratedBase : M unit :=
  Decorators.field (TGraphQL GraphQLString) None Base "a" ;;;
  Decorators.field (TGraphQL GraphQLString) None Derived "b" ;;;
  Decorators.type None Derived.

(** Both classes decorated, both declaring [a]; [Derived] also [b]. *)
Definition decoratedBase : M unit :=
  Decorators.field (TGraphQL GraphQLString) None Base "a" ;;;
  Decorators.type None Base ;;;
  Decorators.field (TGraphQL GraphQLInt) None Derived "a" ;;;
  Decorators.field (TGraphQL GraphQLString) None Derived "b" ;;;
  Decorators.type None Derived.

(** A type with a query returning itself and a field of an unknown type. *)
Definition unknownFieldType : M unit :=
  Decorators.field (TName "Unknown") None Test "test" ;;;
  Decorators.query (mkResolverArgs (inr (TThunk Test)) None None None) Test "myQuery"
                   (Some 0) ;;;
  Decorators.type None Test.


(** A query whose return type is a name nobody declared. *)
Definition unknownReturnType : M unit :=
  Decorators.query (mkResolverArgs (inr (TName "Unknown")) None None None) Test
                   "myQuery" (Some 0).

(** One query, one mutation, no subscription. *)
Definition queryAndMutation : M unit :=
  Decorators.query noArgs Test "myQuery" (Some 0) ;;;
  Decorators.mutation noArgs Test "myMutation" (Some 1).


Definition noTables : Tables := mkTables [] [] [] [] [].

(** The builder after running [m] on a fresh one. *)
Definition after {A : Type} (m : M A) : SchemaBuilder := snd (m newSchemaBuilder).

End Sample.

(** ** Further notions, for the rest of the builder *)

(** [proto.name] as a condition. *)
Definition named (c : Class) : bool := 0 <? String.length (c_name c).

(** Each class of the list is followed by its prototype. *)
Fixpoint prototypeChain (cs : list Class) : Prop :=
  match cs with
  | a :: rest =>
      match rest with
      | b :: _ => c_proto a = Some b /\ prototypeChain rest
      | [] => True
      end
  | [] => True
  end.

(** The builder once the record [name], created empty if need be, has been
    rewritten by [f]. *)
Definition writeType (name : string) (f : TypeInfo -> TypeInfo) (b : SchemaBuilder)
  : SchemaBuilder :=
  set_types (Hash.set (_types b) name (f (typeRecord b name))) b.

(** The kind a class-level declaration gives, and the class it is on. *)
Definition classLevel (d : Declaration) : option (Kind * Class) :=
  match d with
  | DInterface _ object => Some (KInterface, object)
  | DType _ object => Some (KType, object)
  | DInput _ object => Some (KInput, object)
  | DScalar _ object => Some (KScalar, object)
  | _ => None
  end.

(** The description a class-level declaration assigns, if it assigns one. *)
Definition assignedDescription (d : Declaration) : option (option string) :=
  match d with
  | DInterface (Some a) _ | DType (Some a) _ | DInput (Some a) _ =>
      Some (ca_description a)
  | _ => None
  end.

(** The builder a program of declarations leaves, from a fresh one. *)
Definition declared (ds : list Declaration) : SchemaBuilder :=
  snd (forEachM declare ds newSchemaBuilder).

(** Type names are unique, and a record sits under its own name and under
    the name of the class it is bound to. *)
Definition wellFormed (b : SchemaBuilder) : Prop :=
  NoDup (Hash.keys (_types b))
  /\ forall n i, In (n, i) (_types b) ->
       ti_name i = n /\ forall c, ti_target i = Some c -> c_name c = n.







(** The fields a root object was constructed with; none for no root. *)
Definition rootFields (root : option GraphQLObjectType) : Hash.t GraphQLFieldConfig :=
  match root with
  | Some object =>
      match ot_fields object with
      | ConstFields fields => fields
      | GetFields _ _ => []
      end
  | None => []
  end.

(** The interface a reference stands for once it is accepted. *)
Definition interfaceOf (r : InterfaceRef) : GraphQLType :=
  match r with
  | IString name => GInterfaceRef name
  | IClass c => GInterfaceRef (c_name c)
  | IObject name => GInterfaceRef name
  end.

(** The configuration of an operation, but for its type and arguments. *)
Definition forwards (r : ResolverInfo) (config : GraphQLFieldConfig) : Prop :=
  fc_resolve config = rc_resolve (r_config r)
  /\ fc_subscribe config = rc_subscribe (r_config r)
  /\ fc_description config = rc_description (r_config r).



(** ** Further declarations used as concrete inputs *)

Module Scenario.

(** [{ room: { type: GraphQLString, defaultValue: 'lobby' } }] *)
Definition roomArgs : Hash.t ArgumentInfo :=
  [("room", mkArgumentInfo (TGraphQL Sample.GraphQLString) (Some (VString "lobby")) None)].

(** An input class with a field that carries a resolver. *)
Definition MyInput : Class := mkClass 20 "MyInput" "class MyInput { }" None.

Definition inputWithResolver : M unit :=
  Decorators.field (TGraphQL Sample.GraphQLString) None MyInput "value" ;;;
  Decorators.resolve 7 MyInput "value" ;;;
  Decorators.input None MyInput.

(** An interface and a type that implements it, by name and by class. *)
Definition Node : Class := mkClass 21 "Node" "class Node { }" None.
Definition User : Class := mkClass 22 "User" "class User extends Node { }" (Some Node).

Definition nodeAndUser : M unit :=
  Decorators.interface None Node ;;;
  Decorators.type (Some (mkClassArgs None (Some [IClass Node; IString "Node"]) None None))
                  User.

(** A subscription with its hook, and a query under the same method name
    on two classes. *)
Definition chat : M unit :=
  Decorators.subscription (mkResolverArgs (inr (TGraphQL Sample.GraphQLString))
                                          (Some "Fired on a message.") (Some roomArgs)
                                          (Some 5))
                          User "chatMessage" (Some 4) ;;;
  Decorators.query Sample.noArgs Node "current" (Some 1) ;;;
  Decorators.query Sample.noArgs User "current" (Some 2).


(** A [values] map that names a member and a name the enum does not have,
    both with a [value] of their own. *)
Definition withValues : EnumDecorationArguments :=
  mkEnumArgs (Some "Role") None
             (Some [("admin", mkEnumValueInfo (Some (VString "ADMIN")) None None);
                    ("schemaSpecific",
                     mkEnumValueInfo (Some (VString "UnknownRole")) None None)]).

End Scenario.





(** What a root object holds, against the operations [sel] of the records:
    each operation name once, no other name, and under each name the
    configuration made from one of the operations registered by it. *)
Definition rootHolds (b : SchemaBuilder) (sel : TypeInfo -> Hash.t ResolverInfo)
           (root : option GraphQLObjectType) : Prop :=
  NoDup (Hash.keys (rootFields root))
  /\ (forall key,
         In key (Hash.keys (rootFields root)) <->
         exists name info, In (name, info) (_types b) /\ In key (Hash.keys (sel info)))
  /\ (forall key config,
         In (key, config) (rootFields root) ->
         exists name info r,
           In (name, info) (_types b) /\ In (key, r) (sel info)
           /\ convertOperation (tablesOf b) r b = (Ok config, b)
           /\ forwards r config).

(** The value records of an enum take their [value] from the enum object:
    every key of the object has a record, and a record's value is the
    object's entry of that name, or undefined when the object has none. *)
Definition valuesFromObject (object : EnumObject) (values : Hash.t EnumValueInfo) : Prop :=
  (forall name, In name (Hash.keys (e_entries object)) -> In name (Hash.keys values))
  /\ forall name v,
       In (name, v) values ->
       match ev_value v with
       | Some x => In (name, x) (e_entries object)
       | None => ~ In name (Hash.keys (e_entries object))
       end.

(** The three maps of operations of a type record, and the one an
    operation declaration writes, with what the declaration was given. *)
Inductive Root : Type := RQuery | RMutation | RSubscription.

Definition operationsAt (root : Root) (info : TypeInfo) : Hash.t ResolverInfo :=
  match root with
  | RQuery => ti_queries info
  | RMutation => ti_mutations info
  | RSubscription => ti_subscriptions info
  end.

Definition operationLevel (d : Declaration)
  : option (Root * ResolverArguments * Class * string * option JSFunction) :=
  match d with
  | DQuery args c m v => Some (RQuery, args, c, m, v)
  | DMutation args c m v => Some (RMutation, args, c, m, v)
  | DSubscription args c m v => Some (RSubscription, args, c, m, v)
  | _ => None
  end.

(** Every enum record is bound to the enum object it is stored under, has a
    name, and takes its values from that object. *)
Definition enumsFollowObjects (b : SchemaBuilder) : Prop :=
  forall object info,
    enumRecord b object = Some info ->
    ei_target info = object
    /\ ei_name info <> EmptyString
    /\ valuesFromObject object (ei_values info).

(** * Properties *)

(** ** Running computations *)

Lemma bind_throw {A B : Type} (m : M A) (k : A -> M B) b e b' :
  m b = (Throw e, b') -> bind m k b = (Throw e, b').
Proof. intros H. unfold bind. rewrite H. reflexivity. Qed.

Lemma bind_inv_ok {A B : Type} (m : M A) (k : A -> M B) b r b' :
  bind m k b = (Ok r, b') ->
  exists a b1, m b = (Ok a, b1) /\ k a b1 = (Ok r, b').
Proof.
  unfold bind. destruct (m b) as [[a | e] b1]; intros H.
  - exists a, b1. split; [reflexivity | exact H].
  - discriminate H.
Qed.

(** ** Read-only computations *)

Lemma readOnly_ret {A : Type} (a : A) : readOnly (ret a).
Proof. intros b. reflexivity. Qed.

Lemma readOnly_throw {A : Type} (e : JSError) : readOnly (@throw A e).
Proof. intros b. reflexivity. Qed.

Lemma readOnly_gets {A : Type} (f : SchemaBuilder -> A) : readOnly (gets f).
Proof. intros b. reflexivity. Qed.

Lemma readOnly_liftResult {A : Type} (r : Result A) : readOnly (liftResult r).
Proof. intros b. reflexivity. Qed.

Lemma readOnly_bind {A B : Type} (m : M A) (k : A -> M B) :
  readOnly m -> (forall a, readOnly (k a)) -> readOnly (bind m k).
Proof.
  intros Hm Hk b. unfold bind. specialize (Hm b).
  destruct (m b) as [[a | e] b1]; simpl in Hm; subst b1.
  - apply Hk.
  - reflexivity.
Qed.

Lemma readOnly_foldM {A B : Type} (f : B -> A -> M B) (xs : list A) :
  (forall acc x, readOnly (f acc x)) -> forall acc, readOnly (foldM f xs acc).
Proof.
  intros Hf. induction xs as [| x xs IH]; intros acc; simpl.
  - apply readOnly_ret.
  - apply readOnly_bind; [apply Hf | intros acc'; apply IH].
Qed.

Lemma readOnly_mapM {A B : Type} (f : A -> M B) (xs : list A) :
  (forall x, readOnly (f x)) -> readOnly (mapM f xs).
Proof.
  intros Hf. induction xs as [| x xs IH]; simpl.
  - apply readOnly_ret.
  - apply readOnly_bind; [apply Hf | intros y].
    apply readOnly_bind; [exact IH | intros ys; apply readOnly_ret].
Qed.

(** ** Field-type wrapping *)



(** ** Facts about string-keyed objects *)

Section HashFacts.
Variable V : Type.
Implicit Types (h p c : Hash.t V) (k : string) (v : V).

Lemma hash_get_set_same h k v : Hash.get (Hash.set h k v) k = Some v.
Proof.
  induction h as [| [k' v'] h IH]; simpl.
  - now rewrite String.eqb_refl.
  - destruct (String.eqb k k') eqn:E; simpl; rewrite E; [reflexivity | exact IH].
Qed.

Lemma hash_get_set_other h k v k0 :
  k0 <> k -> Hash.get (Hash.set h k v) k0 = Hash.get h k0.
Proof.
  intros Hne. induction h as [| [k' v'] h IH]; simpl.
  - apply String.eqb_neq in Hne. now rewrite Hne.
  - destruct (String.eqb k k') eqn:E; simpl.
    + apply String.eqb_eq in E. subst k'.
      apply String.eqb_neq in Hne. now rewrite Hne.
    + now rewrite IH.
Qed.

Lemma hash_keys_set h k v x :
  In x (Hash.keys (Hash.set h k v)) <-> x = k \/ In x (Hash.keys h).
Proof.
  unfold Hash.keys. induction h as [| [k' v'] h IH]; simpl.
  - intuition.
  - destruct (String.eqb k k') eqn:E; simpl.
    + apply String.eqb_eq in E. subst k'. intuition.
    + rewrite IH. intuition.
Qed.

Lemma hash_set_not_nil h k v : Hash.set h k v <> [].
Proof.
  destruct h as [| [k' v'] h]; simpl; [discriminate |].
  destruct (String.eqb k k'); discriminate.
Qed.

Lemma hash_get_in_keys h k : Hash.get h k <> None <-> In k (Hash.keys h).
Proof.
  unfold Hash.keys. induction h as [| [k' v'] h IH]; simpl.
  - intuition.
  - destruct (String.eqb k k') eqn:E.
    + apply String.eqb_eq in E. subst. split; [auto | discriminate].
    + apply String.eqb_neq in E. rewrite IH. intuition congruence.
Qed.

Lemma hash_get_none h k : Hash.get h k = None <-> ~ In k (Hash.keys h).
Proof.
  rewrite <- hash_get_in_keys. destruct (Hash.get h k); intuition congruence.
Qed.

Lemma hash_get_in h k v : Hash.get h k = Some v -> In (k, v) h.
Proof.
  induction h as [| [k' v'] h IH]; simpl; [discriminate |].
  destruct (String.eqb k k') eqn:E.
  - apply String.eqb_eq in E. intros [= ->]. subst. now left.
  - intros H. right. now apply IH.
Qed.

Lemma hash_nodup_set h k v :
  NoDup (Hash.keys h) -> NoDup (Hash.keys (Hash.set h k v)).
Proof.
  unfold Hash.keys. induction h as [| [k' v'] h IH]; simpl; intros Hnd.
  - constructor; [intros [] | constructor].
  - destruct (String.eqb k k') eqn:E; simpl; [exact Hnd |].
    inversion Hnd as [| ? ? Hnotin Hnd']; subst.
    constructor; [| now apply IH].
    intros Hin. apply (hash_keys_set h k v k') in Hin.
    destruct Hin as [-> | Hin]; [| contradiction].
    now rewrite String.eqb_refl in E.
Qed.

Lemma hash_keys_spread p c x :
  In x (Hash.keys (Hash.spread p c)) <-> In x (Hash.keys p) \/ In x (Hash.keys c).
Proof.
  unfold Hash.spread. revert p. induction c as [| [k v] c IH]; intros p; simpl.
  - intuition.
  - rewrite IH, hash_keys_set. intuition.
Qed.

Lemma hash_nodup_spread p c :
  NoDup (Hash.keys p) -> NoDup (Hash.keys (Hash.spread p c)).
Proof.
  unfold Hash.spread. revert p. induction c as [| [k v] c IH]; intros p Hnd; simpl.
  - exact Hnd.
  - apply IH. now apply hash_nodup_set.
Qed.

(** With unique keys in [c], [{...p, ...c}] reads [c] first and [p] next. *)
Lemma hash_get_spread p c k :
  NoDup (Hash.keys c) ->
  Hash.get (Hash.spread p c) k =
    match Hash.get c k with Some v => Some v | None => Hash.get p k end.
Proof.
  unfold Hash.spread. revert p. induction c as [| [k1 v1] c IH]; intros p Hnd; simpl.
  - reflexivity.
  - inversion Hnd as [| ? ? Hnotin Hnd']; subst.
    rewrite (IH _ Hnd'). destruct (String.eqb k k1) eqn:E.
    + apply String.eqb_eq in E. subst k1.
      apply hash_get_none in Hnotin. unfold Hash.keys in Hnotin.
      rewrite Hnotin. apply hash_get_set_same.
    + apply String.eqb_neq in E. destruct (Hash.get c k); [reflexivity |].
      now apply hash_get_set_other.
Qed.

Lemma hash_keys_spread_all (hs : list (Hash.t V)) acc x :
  In x (Hash.keys (fold_left Hash.spread hs acc)) <->
  In x (Hash.keys acc) \/ exists h, In h hs /\ In x (Hash.keys h).
Proof.
  revert acc. induction hs as [| h hs IH]; intros acc; simpl.
  - split; [auto | intros [H | [h [[] _]]]; exact H].
  - rewrite IH, hash_keys_spread. split.
    + intros [[H | H] | [h' [Hin Hx]]]; eauto.
    + intros [H | [h' [[-> | Hin] Hx]]]; eauto.
Qed.

Lemma hash_nodup_spread_all (hs : list (Hash.t V)) acc :
  NoDup (Hash.keys acc) -> NoDup (Hash.keys (fold_left Hash.spread hs acc)).
Proof.
  revert acc. induction hs as [| h hs IH]; intros acc Hnd; simpl.
  - exact Hnd.
  - apply IH. now apply hash_nodup_spread.
Qed.

End HashFacts.

(** The keys of an object rebuilt entry by entry, as [build] and
    [getOrAddEnum] rebuild [values]. *)
Lemma hash_keys_rebuilt {A B : Type} (g : string * A -> B) (l : Hash.t A)
      (acc : Hash.t B) x :
  In x (Hash.keys (fold_left Hash.spread
                     (map (fun nv => Hash.single (fst nv) (g nv)) l) acc)) <->
  In x (Hash.keys acc) \/ In x (Hash.keys l).
Proof.
  rewrite hash_keys_spread_all. split.
  - intros [H | [h [Hin Hx]]]; [now left | right].
    apply in_map_iff in Hin. destruct Hin as [[k a] [<- Hin]]. simpl in Hx.
    destruct Hx as [<- | []]. unfold Hash.keys.
    apply in_map_iff. now exists (k, a).
  - intros [H | H]; [now left | right].
    unfold Hash.keys in H. apply in_map_iff in H. destruct H as [[k a] [<- Hin]].
    exists (Hash.single k (g (k, a))). split; [| now left].
    apply in_map_iff. now exists (k, a).
Qed.

(** ** The enum store *)

Lemma JSValue_eqb_refl (v : JSValue) : JSValue_eqb v v = true.
Proof.
  destruct v; simpl; auto using Bool.eqb_reflx, Z.eqb_refl, String.eqb_refl.
Qed.

Lemma enum_eqb_refl (e : EnumObject) : enum_eqb e e = true.
Proof.
  unfold enum_eqb. rewrite Nat.eqb_refl. simpl.
  induction (e_entries e) as [| [k v] l IH]; simpl; [reflexivity |].
  now rewrite String.eqb_refl, JSValue_eqb_refl, IH.
Qed.

Lemma enummap_get_set_same (m : EnumMap.t) k v :
  EnumMap.get (EnumMap.set m k v) k = Some v.
Proof.
  induction m as [| [k' v'] m IH]; simpl.
  - now rewrite enum_eqb_refl.
  - destruct (enum_eqb k k') eqn:E; simpl; rewrite E; [reflexivity | exact IH].
Qed.

Lemma enummap_set_set (m : EnumMap.t) k v v' :
  EnumMap.set (EnumMap.set m k v) k v' = EnumMap.set m k v'.
Proof.
  induction m as [| [k0 v0] m IH]; simpl.
  - now rewrite enum_eqb_refl.
  - destruct (enum_eqb k k0) eqn:E; simpl; rewrite E; [reflexivity | now rewrite IH].
Qed.


Lemma enummap_set_same (m : EnumMap.t) k v :
  EnumMap.get m k = Some v -> EnumMap.set m k v = m.
Proof.
  induction m as [| [k0 v0] m IH]; simpl; [discriminate |].
  destruct (enum_eqb k k0).
  - intros [= ->]. reflexivity.
  - intros H. now rewrite IH.
Qed.

Lemma assignEnum_registered object f b info :
  EnumMap.get (_enums b) object = Some info ->
  assignEnum object f b =
    (Ok tt, set_enums (EnumMap.set (_enums b) object (f info)) b).
Proof. intros H. unfold assignEnum, modify. now rewrite H. Qed.

(** The loop of [decorateEnum] over [args.values] rewrites the one record. *)
Lemma decorate_values_registered object values :
  forall b info,
    EnumMap.get (_enums b) object = Some info ->
    forEachM (fun nv => assignEnum object (Decorators.decorateValue (fst nv) (snd nv)))
             values b
    = (Ok tt,
       set_enums (EnumMap.set (_enums b) object
                    (fold_left (fun i nv => Decorators.decorateValue (fst nv) (snd nv) i)
                               values info)) b).
Proof.
  induction values as [| [n v] values IH]; intros b info Hget; simpl.
  - unfold ret. rewrite (enummap_set_same _ _ _ Hget). now destruct b.
  - unfold bind at 1. rewrite (assignEnum_registered _ _ _ _ Hget).
    rewrite (IH _ (Decorators.decorateValue n v info)).
    + simpl. now rewrite enummap_set_set.
    + simpl. apply enummap_get_set_same.
Qed.

(** [getOrAddEnum] under a name that passes the guard. *)
Lemma getOrAddEnum_named object n b :
  trim n <> EmptyString ->
  getOrAddEnum object (Some n) b =
    match EnumMap.get (_enums b) object with
    | Some info => (Ok info, b)
    | None =>
        match reduce1 Hash.spread
                (map (fun nv => Hash.single (fst nv)
                                  (mkEnumValueInfo (Some (snd nv)) None None))
                     (e_entries object)) with
        | Ok values =>
            (Ok (mkEnumInfo (trim n) None object values),
             set_enums (EnumMap.set (_enums b) object
                          (mkEnumInfo (trim n) None object values)) b)
        | Throw e => (Throw e, b)
        end
    end.
Proof.
  intros Hn. unfold getOrAddEnum.
  assert (Hguard : (String.length n =? 0) || (String.length (trim n) =? 0) = false).
  { apply Bool.orb_false_iff. split; apply Nat.eqb_neq.
    - destruct n; [now contradiction Hn | discriminate].
    - destruct (trim n); [now contradiction Hn | discriminate]. }
  rewrite Hguard. unfold bind, gets, liftResult, modify, ret. simpl.
  destruct (EnumMap.get (_enums b) object); [reflexivity |].
  destruct (reduce1 _ _); reflexivity.
Qed.

(** [getOrAddEnum] under a name the guard rejects. *)
Lemma getOrAddEnum_rejected object name b :
  match name with Some n => trim n = EmptyString | None => True end ->
  getOrAddEnum object name b = (Throw (Error (invalidEnumName name)), b).
Proof.
  destruct name as [n |]; intros Hn; unfold getOrAddEnum; [| reflexivity].
  rewrite Hn. simpl. now rewrite Bool.orb_true_r.
Qed.

Lemma decorateEnum_rejected object args b :
  match ea_name args with Some n => trim n = EmptyString | None => True end ->
  Decorators.decorateEnum object args b
  = (Throw (Error (invalidEnumName (ea_name args))), b).
Proof.
  intros Hn. unfold Decorators.decorateEnum.
  apply bind_throw. now apply getOrAddEnum_rejected.
Qed.

(** ** Enum names *)




(** ** What [build] returns *)

Lemma materialize_keeps_enums (ts : Hash.t TypeInfo) :
  forall tables, tb_enums (fold_left materializeType ts tables) = tb_enums tables.
Proof.
  induction ts as [| [name info] ts IH]; intros tables; simpl; [reflexivity |].
  rewrite IH. unfold materializeType. simpl.
  destruct (ti_kind info) as [[] |]; reflexivity.
Qed.

Lemma materialize_enums es ts : tb_enums (materialize es ts) = materializeEnums es.
Proof. unfold materialize. now rewrite materialize_keeps_enums. Qed.

(** [build] returns the roots it assembled from the three maps, over the
    tables of the two materialisation loops. *)
Lemma build_inv b s b' :
  build b = (Ok s, b') ->
  exists ops b1,
    foldM (collectOperations (materialize (_enums b) (_types b))) (_types b)
          (mkOperations [] [] []) b = (Ok ops, b1)
    /\ s = mkSchema (Some (rootObject "Query" (op_queries ops)))
                    (optionalRoot "Mutation" (op_mutations ops))
                    (optionalRoot "Subscriptions" (op_subscriptions ops))
                    (materialize (_enums b) (_types b)).
Proof.
  unfold build, enums, types, gets, bind at 1 2 3. simpl. intros H.
  apply bind_inv_ok in H. destruct H as [ops [b1 [Hops Hret]]].
  exists ops, b1. split; [exact Hops |]. unfold ret in Hret. now inversion Hret.
Qed.

(** ** Enum values *)



Lemma decorate_values_name (values : Hash.t EnumValueInfo) :
  forall info,
    ei_name (fold_left (fun i nv => Decorators.decorateValue (fst nv) (snd nv) i)
                       values info) = ei_name info.
Proof.
  induction values as [| [n v] values IH]; intros info; simpl; [reflexivity |].
  now rewrite IH.
Qed.

Lemma decorate_values_description (values : Hash.t EnumValueInfo) :
  forall info,
    ei_description (fold_left (fun i nv => Decorators.decorateValue (fst nv) (snd nv) i)
                              values info) = ei_description info.
Proof.
  induction values as [| [n v] values IH]; intros info; simpl; [reflexivity |].
  now rewrite IH.
Qed.

(** The values a fresh enum record starts with are the entries of the enum
    object. *)
Lemma initial_values_keys (entries : Hash.t JSValue) values k :
  reduce1 Hash.spread
    (map (fun nv => Hash.single (fst nv) (mkEnumValueInfo (Some (snd nv)) None None))
         entries) = Ok values ->
  In k (Hash.keys values) <-> In k (Hash.keys entries).
Proof.
  destruct entries as [| [n v] entries]; simpl; [discriminate |].
  intros [= <-].
  rewrite (hash_keys_rebuilt (fun nv => mkEnumValueInfo (Some (snd nv)) None None)).
  simpl. intuition.
Qed.



(** What [decorateEnum] does to the registry when it returns. *)
Lemma decorateEnum_inv object args b b1 :
  Decorators.decorateEnum object args b = (Ok tt, b1) ->
  exists n start,
    ea_name args = Some n /\ trim n <> EmptyString
    /\ match enumRecord b object with
       | Some info => start = info
       | None =>
           exists values,
           reduce1 Hash.spread
             (map (fun nv => Hash.single (fst nv)
                               (mkEnumValueInfo (Some (snd nv)) None None))
                  (e_entries object)) = Ok values
           /\ start = mkEnumInfo (trim n) None object values
       end
    /\ b1 = set_enums
              (EnumMap.set (_enums b) object
                 (fold_left (fun i nv => Decorators.decorateValue (fst nv) (snd nv) i)
                            (match ea_values args with Some vs => vs | None => [] end)
                            (set_ei_description (ea_description args) start)))
              b.
Proof.
  intros H. destruct (ea_name args) as [n |] eqn:Hname.
  2:{ rewrite decorateEnum_rejected in H; [discriminate | now rewrite Hname]. }
  destruct (string_dec (trim n) EmptyString) as [He | Hn].
  { rewrite decorateEnum_rejected in H; [discriminate | now rewrite Hname]. }
  exists n. unfold Decorators.decorateEnum in H. rewrite Hname in H.
  unfold bind at 1 in H. rewrite (getOrAddEnum_named _ _ _ Hn) in H.
  unfold enumRecord.
  assert (Hloop : forall b0 info0,
             EnumMap.get (_enums b0) object = Some info0 ->
             (assignEnum object (set_ei_description (ea_description args)) ;;;
              match ea_values args with
              | Some values =>
                  forEachM (fun nv => assignEnum object
                                        (Decorators.decorateValue (fst nv) (snd nv)))
                           values
              | None => ret tt
              end) b0
             = (Ok tt,
                set_enums
                  (EnumMap.set (_enums b0) object
                     (fold_left (fun i nv => Decorators.decorateValue (fst nv) (snd nv) i)
                                (match ea_values args with Some vs => vs | None => [] end)
                                (set_ei_description (ea_description args) info0)))
                  b0)).
  { intros b0 info0 Hget. unfold bind at 1.
    rewrite (assignEnum_registered _ _ _ _ Hget).
    destruct (ea_values args) as [vs |].
    - erewrite decorate_values_registered by (simpl; apply enummap_get_set_same).
      simpl. now rewrite enummap_set_set.
    - reflexivity. }
  destruct (EnumMap.get (_enums b) object) as [info |] eqn:Hget.
  - exists info. rewrite (Hloop _ _ Hget) in H. inversion H. auto.
  - destruct (reduce1 _ _) as [values | e] eqn:Hred; [| discriminate].
    exists (mkEnumInfo (trim n) None object values).
    erewrite Hloop in H by (simpl; apply enummap_get_set_same).
    simpl in H. rewrite enummap_set_set in H. inversion H.
    repeat split; auto. now exists values.
Qed.




(** ** Decorating an enum again *)

(** C8, on the code.  For an enum already in the registry, a further
    [decorateEnum] call under a valid name keeps the record's name and sets
    its description to the call's [description], also when the call gives
    none: a description set earlier is then lost. *)
Theorem redecoration_assigns_description :
  forall (object : EnumObject) (args : EnumDecorationArguments) (b : SchemaBuilder)
         (info : EnumInfo) (n : string),
    enumRecord b object = Some info ->
    ea_name args = Some n ->
    trim n <> EmptyString ->
    exists b' info',
      Decorators.decorateEnum object args b = (Ok tt, b')
      /\ enumRecord b' object = Some info'
      /\ ei_name info' = ei_name info
      /\ ei_description info' = ea_description args.
Proof.
  intros object args b info n Hreg Hname Hn. unfold enumRecord in Hreg.
  destruct (Decorators.decorateEnum object args b) as [r b'] eqn:Hrun.
  assert (Hr : r = Ok tt).
  { unfold Decorators.decorateEnum in Hrun. rewrite Hname in Hrun.
    unfold bind at 1 in Hrun. rewrite (getOrAddEnum_named _ _ _ Hn), Hreg in Hrun.
    unfold bind at 1 in Hrun. rewrite (assignEnum_registered _ _ _ _ Hreg) in Hrun.
    destruct (ea_values args) as [vs |].
    - erewrite decorate_values_registered in Hrun
        by (simpl; apply enummap_get_set_same).
      now inversion Hrun.
    - now inversion Hrun. }
  subst r. destruct (decorateEnum_inv _ _ _ _ Hrun) as [n' [start [_ [_ [Hstart Hb']]]]].
  unfold enumRecord in Hstart. rewrite Hreg in Hstart. subst start.
  exists b'. eexists. split; [reflexivity |]. subst b'. unfold enumRecord. simpl.
  split; [apply enummap_get_set_same |]. split.
  - now rewrite decorate_values_name.
  - now rewrite decorate_values_description.
Qed.

Lemma redecoration_assigns_description_witness :
  option_map ei_description
    (enumRecord (Sample.after (Decorators.decorateEnum Sample.Role Sample.twoOfFour))
                Sample.Role) = Some (Some "An enum")
  /\ exists b' info',
       Decorators.decorateEnum Sample.Role Sample.nameOnly
         (Sample.after (Decorators.decorateEnum Sample.Role Sample.twoOfFour))
       = (Ok tt, b')
       /\ enumRecord b' Sample.Role = Some info'
       /\ ei_name info' = "Role"
       /\ ei_description info' = None.
Proof.
  split; [reflexivity |].
  refine (redecoration_assigns_description Sample.Role Sample.nameOnly
            (Sample.after (Decorators.decorateEnum Sample.Role Sample.twoOfFour))
            _ "Role" eq_refl eq_refl _).
  vm_compute. discriminate.
Defined.

(** ** The tables and the registry *)





Lemma materializeEnums_keys (es : EnumMap.t) :
  forall acc name,
    In name (Hash.keys
               (fold_left (fun acc ke => Hash.set acc (ei_name (snd ke))
                                           (materializeEnum (snd ke))) es acc)) <->
    In name (Hash.keys acc)
    \/ exists object info, In (object, info) es /\ ei_name info = name.
Proof.
  induction es as [| [o i] es IH]; intros acc name; simpl.
  - split; [auto | intros [H | [? [? [[] _]]]]; exact H].
  - rewrite IH, hash_keys_set. simpl. split.
    + intros [[-> | H] | [o' [i' [Hin Hname]]]]; eauto 6.
    + intros [H | [o' [i' [[[= -> ->] | Hin] Hname]]]]; eauto 6.
Qed.

Lemma enum_table_names b name :
  isSome (Hash.get (tb_enums (materialize (_enums b) (_types b))) name) = true
  <-> enumNamedInRegistry b name.
Proof.
  rewrite materialize_enums. unfold enumNamedInRegistry, materializeEnums.
  transitivity (In name (Hash.keys (materializeEnums (_enums b)))).
  - rewrite <- hash_get_in_keys. unfold materializeEnums.
    destruct (Hash.get _ name); simpl; split; congruence.
  - unfold materializeEnums. rewrite materializeEnums_keys. simpl. intuition.
Qed.

(** ** Resolving references *)



(** The [map] of the [interfaces] thunk stops at the first reference it
    does not accept. *)
Lemma resolve_interfaces_first_undeclared tables refs :
  forall r b,
    find (fun r => negb (declaredInterface tables r)) refs = Some r ->
    mapM (resolveInterface tables) refs b = (Throw (Error (interfaceNotDefined r)), b).
Proof.
  induction refs as [| r0 refs IH]; intros r b Hfind; simpl in *; [discriminate |].
  destruct (declaredInterface tables r0) eqn:Hd; simpl in Hfind.
  - unfold bind at 1.
    assert (Hr0 : exists t, resolveInterface tables r0 b = (Ok t, b)).
    { destruct r0; simpl in *; try discriminate; rewrite Hd; eexists; reflexivity. }
    destruct Hr0 as [t ->]. unfold bind at 1. now rewrite (IH _ _ Hfind).
  - inversion Hfind; subst r0. apply bind_throw.
    destruct r; simpl in *; try rewrite Hd; reflexivity.
Qed.




(** The return types of the operations are resolved while [build] runs, so
    an unknown one makes [build] itself throw. *)
Example build_throws_on_unknown_return_type :
  build (Sample.after Sample.unknownReturnType)
  = (Throw (Error "Type 'Unknown' not defined"), Sample.after Sample.unknownReturnType).
Proof. reflexivity. Qed.

(** The fields of a type are resolved when its thunk is forced. *)
Example fields_thunk_throws_on_unknown_field_type :
  forceFields (tablesOf (Sample.after Sample.unknownFieldType))
              (GetFields (infoOf (Sample.after Sample.unknownFieldType) Sample.Test)
                         ConvertOutputType)
              (Sample.after Sample.unknownFieldType)
  = (Throw (Error "Type 'Unknown' not defined"), Sample.after Sample.unknownFieldType).
Proof. reflexivity. Qed.

(** ** [build] reads, and never writes *)

Create HintDb readonly.

#[local] Hint Resolve readOnly_ret readOnly_throw readOnly_gets readOnly_liftResult
  : readonly.

Ltac read_only :=
  repeat match goal with
         | |- forall _, _ => intro
         | |- readOnly (bind _ _) => apply readOnly_bind
         | |- readOnly (mapM _ _) => apply readOnly_mapM
         | |- readOnly (foldM _ _ _) => apply readOnly_foldM
         | |- readOnly (if ?c then _ else _) => destruct c
         | |- readOnly (match ?x with _ => _ end) => destruct x
         | |- readOnly _ => solve [auto with readonly]
         end.

Lemma readOnly_hasType name : readOnly (hasType name).
Proof. apply readOnly_gets. Qed.

Lemma readOnly_hasEnum e : readOnly (hasEnum e).
Proof. apply readOnly_gets. Qed.

Lemma readOnly_enums : readOnly enums.
Proof. apply readOnly_gets. Qed.

Lemma readOnly_types : readOnly types.
Proof. apply readOnly_gets. Qed.

Lemma readOnly_findByClass c : readOnly (findByClass c).
Proof. apply readOnly_gets. Qed.

#[local] Hint Resolve readOnly_hasType readOnly_hasEnum readOnly_enums readOnly_types
  readOnly_findByClass : readonly.

Lemma readOnly_convertOutputType tables type : readOnly (convertOutputType tables type).
Proof. unfold convertOutputType, outputTypeNamed. read_only. Qed.

Lemma readOnly_convertInputType tables type : readOnly (convertInputType tables type).
Proof. unfold convertInputType, inputTypeNamed. read_only. Qed.

#[local] Hint Resolve readOnly_convertOutputType readOnly_convertInputType : readonly.

Lemma readOnly_runConverter tables converter type :
  readOnly (runConverter tables converter type).
Proof. destruct converter; simpl; auto with readonly. Qed.

Lemma readOnly_convertFieldInfoToType fieldInfo converter :
  (forall type, readOnly (converter type)) ->
  readOnly (convertFieldInfoToType fieldInfo converter).
Proof. intros H. unfold convertFieldInfoToType. read_only; apply H. Qed.

Lemma readOnly_convertArguments tables args : readOnly (convertArguments tables args).
Proof. unfold convertArguments. read_only. Qed.

#[local] Hint Resolve readOnly_runConverter readOnly_convertArguments : readonly.

Lemma readOnly_convertOperation tables value : readOnly (convertOperation tables value).
Proof.
  unfold convertOperation. read_only.
  apply readOnly_convertFieldInfoToType. auto with readonly.
Qed.

Lemma readOnly_addOperations tables operations acc :
  readOnly (addOperations tables operations acc).
Proof.
  unfold addOperations. read_only. apply readOnly_convertOperation.
Qed.

Lemma readOnly_collectOperations tables acc entry :
  readOnly (collectOperations tables acc entry).
Proof. unfold collectOperations. read_only; apply readOnly_addOperations. Qed.

Lemma readOnly_inheritedFields info : readOnly (inheritedFields info).
Proof. unfold inheritedFields. read_only. Qed.

Lemma readOnly_getFields tables info converter :
  readOnly (getFields tables info converter).
Proof.
  unfold getFields. read_only; try apply readOnly_inheritedFields.
  apply readOnly_convertFieldInfoToType. auto with readonly.
Qed.

Lemma readOnly_forceFields tables thunk : readOnly (forceFields tables thunk).
Proof. destruct thunk; simpl; [apply readOnly_getFields | apply readOnly_ret]. Qed.

Lemma readOnly_getInterfaces tables info : readOnly (getInterfaces tables info).
Proof.
  unfold getInterfaces. read_only. unfold resolveInterface. read_only.
Qed.

Lemma readOnly_build : readOnly build.
Proof.
  unfold build. read_only. apply readOnly_collectOperations.
Qed.

(** C5.  [build] leaves the registry as it found it: the stores of types
    and enums after the call are those before it.  Two successive calls
    therefore return the same schema, which any printer renders alike.  The
    thunks the schema holds do not write to the registry either when they
    are forced. *)
Theorem build_leaves_registry_unchanged :
  (forall b,
      _types (snd (build b)) = _types b /\ _enums (snd (build b)) = _enums b)
  /\ (forall b s1 b1 s2 b2,
         build b = (Ok s1, b1) -> build b1 = (Ok s2, b2) ->
         s1 = s2
         /\ forall (Printed : Type) (printSchema : GraphQLSchema -> Printed),
              printSchema s1 = printSchema s2)
  /\ (forall tables thunk, readOnly (forceFields tables thunk))
  /\ (forall tables info, readOnly (getInterfaces tables info)).
Proof.
  split; [| split; [| split]].
  - intros b. now rewrite (readOnly_build b).
  - intros b s1 b1 s2 b2 H1 H2.
    assert (Hb1 : b1 = b).
    { pose proof (readOnly_build b) as H. now rewrite H1 in H. }
    subst b1. rewrite H1 in H2. inversion H2. subst.
    split; [reflexivity | intros; reflexivity].
  - exact readOnly_forceFields.
  - exact readOnly_getInterfaces.
Qed.

Lemma build_leaves_registry_unchanged_witness :
  exists s,
    build (Sample.after Sample.queryAndMutation)
    = (Ok s, Sample.after Sample.queryAndMutation)
    /\ forall (Printed : Type) (printSchema : GraphQLSchema -> Printed),
         printSchema s = printSchema s.
Proof.
  eexists. split; [cbv; reflexivity |].
  refine (proj2 (proj1 (proj2 build_leaves_registry_unchanged)
                   (Sample.after Sample.queryAndMutation) _
                   (Sample.after Sample.queryAndMutation) _
                   (Sample.after Sample.queryAndMutation) _ _));
    reflexivity.
Defined.

(** ** Field names stay unique *)

Lemma preserves_ret P {A : Type} (a : A) : preserves P (ret a).
Proof. intros b H. exact H. Qed.

Lemma preserves_throw P {A : Type} (e : JSError) : preserves P (@throw A e).
Proof. intros b H. exact H. Qed.

Lemma preserves_gets P {A : Type} (f : SchemaBuilder -> A) : preserves P (gets f).
Proof. intros b H. exact H. Qed.

Lemma preserves_liftResult P {A : Type} (r : Result A) : preserves P (liftResult r).
Proof. intros b H. exact H. Qed.

Lemma preserves_bind P {A B : Type} (m : M A) (k : A -> M B) :
  preserves P m -> (forall a, preserves P (k a)) -> preserves P (bind m k).
Proof.
  intros Hm Hk b H. unfold bind. specialize (Hm b H).
  destruct (m b) as [[a | e] b1]; simpl in *; [now apply Hk | exact Hm].
Qed.

Lemma preserves_forEachM P {A : Type} (f : A -> M unit) (xs : list A) :
  (forall x, preserves P (f x)) -> preserves P (forEachM f xs).
Proof.
  intros Hf. induction xs as [| x xs IH]; simpl.
  - apply preserves_ret.
  - apply preserves_bind; [apply Hf | intros _; exact IH].
Qed.

Lemma hash_in_set {V : Type} (h : Hash.t V) k v k0 v0 :
  In (k0, v0) (Hash.set h k v) -> (k0 = k /\ v0 = v) \/ In (k0, v0) h.
Proof.
  induction h as [| [k1 v1] h IH]; simpl.
  - intros [[= <- <-] | []]. now left.
  - destruct (String.eqb k k1) eqn:E; simpl.
    + apply String.eqb_eq in E. subst k1.
      intros [[= <- <-] | Hin]; [now left | right; now right].
    + intros [Heq | Hin]; [right; now left |].
      destruct (IH Hin) as [Hnew | Hold]; [now left | right; now right].
Qed.

Lemma unique_getOrAddType name : preserves uniqueFieldNames (getOrAddType name).
Proof.
  intros b H n i Hin. unfold getOrAddType in Hin. simpl in Hin.
  apply hash_in_set in Hin. destruct Hin as [[-> ->] | Hin]; [| now apply (H n i)].
  destruct (Hash.get (_types b) name) as [t |] eqn:E.
  - apply hash_get_in in E. now apply (H name t).
  - constructor.
Qed.

Lemma unique_assignType name f :
  (forall t, NoDup (Hash.keys (ti_fields t)) -> NoDup (Hash.keys (ti_fields (f t)))) ->
  preserves uniqueFieldNames (assignType name f).
Proof.
  intros Hf b H n i Hin. unfold assignType, modify in Hin. simpl in Hin.
  destruct (Hash.get (_types b) name) as [t |] eqn:E; [| now apply (H n i)].
  simpl in Hin. apply hash_in_set in Hin.
  destruct Hin as [[-> ->] | Hin]; [| now apply (H n i)].
  apply Hf. apply hash_get_in in E. now apply (H name t).
Qed.

Lemma unique_assignEnum object f : preserves uniqueFieldNames (assignEnum object f).
Proof.
  intros b H n i Hin. unfold assignEnum, modify in Hin. simpl in Hin.
  destruct (EnumMap.get (_enums b) object); now apply (H n i).
Qed.

Lemma unique_getOrAddEnum object name : preserves uniqueFieldNames (getOrAddEnum object name).
Proof.
  unfold getOrAddEnum. destruct name as [n |]; [| apply preserves_throw].
  destruct (_ || _); [apply preserves_throw |].
  apply preserves_bind; [apply preserves_gets | intros es].
  destruct (EnumMap.get es object); [apply preserves_ret |].
  apply preserves_bind; [apply preserves_liftResult | intros values].
  apply preserves_bind; [| intros _; apply preserves_ret].
  intros b H n' i Hin. exact (H n' i Hin).
Qed.

Lemma unique_onField typeName name f :
  preserves uniqueFieldNames (Decorators.onField typeName name f).
Proof.
  unfold Decorators.onField. apply preserves_bind; [| intros _].
  - unfold getOrAddField.
    apply preserves_bind; [apply unique_getOrAddType | intros type].
    apply preserves_bind; [| intros _; apply preserves_ret].
    apply unique_assignType. intros t Hnd. simpl. now apply hash_nodup_set.
  - unfold assignField. apply unique_assignType. intros t Hnd.
    destruct (Hash.get (ti_fields t) name); [simpl; now apply hash_nodup_set | exact Hnd].
Qed.

Ltac keeps_unique :=
  repeat match goal with
         | |- forall _, _ => intro
         | |- preserves _ (bind _ _) => apply preserves_bind
         | |- preserves _ (ret _) => apply preserves_ret
         | |- preserves _ (Decorators.onField _ _ _) => apply unique_onField
         | |- preserves _ (getOrAddType _) => apply unique_getOrAddType
         | |- preserves _ (getOrAddEnum _ _) => apply unique_getOrAddEnum
         | |- preserves _ (assignEnum _ _) => apply unique_assignEnum
         | |- preserves _ (forEachM _ _) => apply preserves_forEachM
         | |- preserves _ (assignType _ _) =>
             apply unique_assignType; intros ? ?; assumption
         | |- preserves _ (match ?x with _ => _ end) => destruct x
         | |- preserves _ (if ?c then _ else _) => destruct c
         end.

Lemma unique_declare d : preserves uniqueFieldNames (declare d).
Proof.
  destruct d as [c p a | args o | args o | args o | args o | args c m d | args c m d
                 | args c m d | o args]; simpl.
  - destruct a; simpl;
      unfold Decorators.field, Decorators.description, Decorators.resolve,
        Decorators.list, Decorators.nonNull, Decorators.nonNullItems; keeps_unique.
  - unfold Decorators.interface. keeps_unique.
  - unfold Decorators.type. keeps_unique.
  - unfold Decorators.input. keeps_unique.
  - unfold Decorators.scalar. keeps_unique.
  - unfold Decorators.query. keeps_unique.
  - unfold Decorators.mutation. keeps_unique.
  - unfold Decorators.subscription. keeps_unique.
  - unfold Decorators.decorateEnum. keeps_unique.
Qed.

(** Every registry the declaration API builds from a fresh builder gives
    each type's fields unique names. *)
Lemma declared_field_names_unique (ds : list Declaration) :
  uniqueFieldNames (snd (forEachM declare ds newSchemaBuilder)).
Proof.
  apply (preserves_forEachM uniqueFieldNames declare ds unique_declare).
  intros n i [].
Qed.

(** ** Inherited fields *)

Lemma mapM_findByClass (cs : list Class) b :
  mapM findByClass cs b
  = (Ok (map (fun c => find (targetIs c) (map snd (_types b))) cs), b).
Proof.
  induction cs as [| c cs IH]; simpl; [reflexivity |].
  unfold bind at 1. unfold findByClass at 1, gets.
  unfold bind at 1. now rewrite IH.
Qed.

Lemma defined_app {A : Type} (xs ys : list (option A)) :
  defined (xs ++ ys) = defined xs ++ defined ys.
Proof.
  induction xs as [| [x |] xs IH]; simpl; [reflexivity | now rewrite IH | exact IH].
Qed.

Lemma defined_rev {A : Type} (xs : list (option A)) :
  defined (rev xs) = rev (defined xs).
Proof.
  induction xs as [| [x |] xs IH]; simpl; [reflexivity | |];
    rewrite defined_app, IH; simpl; [reflexivity | now rewrite app_nil_r].
Qed.

Lemma defined_in {A : Type} (xs : list (option A)) x :
  In x (defined xs) <-> In (Some x) xs.
Proof.
  induction xs as [| [y |] xs IH]; simpl; [tauto | |]; rewrite IH;
    intuition congruence.
Qed.

(** What [inheritedFields] returns, in terms of the located ancestors. *)
Lemma inheritedFields_run info target b :
  ti_target info = Some target ->
  inheritedFields info b
  = (Ok (fold_left Hash.spread (map ti_fields (rev (locatedAncestors b target))) []), b).
Proof.
  intros Ht. unfold inheritedFields. rewrite Ht.
  unfold bind. rewrite mapM_findByClass. unfold ret, locatedAncestors.
  now rewrite map_rev, defined_rev.
Qed.

(** Merging root-to-self reads nearest-first. *)
Lemma merged_get_nearest (ancestors : list TypeInfo) name :
  (forall a, In a ancestors -> NoDup (Hash.keys (ti_fields a))) ->
  Hash.get (fold_left Hash.spread (map ti_fields (rev ancestors)) []) name
  = nearestDeclaration ancestors name.
Proof.
  induction ancestors as [| a rest IH]; intros Hnd; simpl; [reflexivity |].
  rewrite map_app, fold_left_app. simpl.
  rewrite hash_get_spread by (apply Hnd; now left).
  destruct (Hash.get (ti_fields a) name); [reflexivity |].
  apply IH. intros a' Hin. apply Hnd. now right.
Qed.

Lemma nearestDeclaration_keys (ancestors : list TypeInfo) name :
  nearestDeclaration ancestors name <> None <->
  exists a, In a ancestors /\ In name (Hash.keys (ti_fields a)).
Proof.
  induction ancestors as [| a rest IH]; simpl.
  - split; [congruence | intros [? [[] _]]].
  - destruct (Hash.get (ti_fields a) name) eqn:E.
    + split; [intros _ | discriminate].
      exists a. split; [now left |]. apply hash_get_in_keys. congruence.
    + rewrite IH. apply hash_get_none in E. split.
      * intros [a' [Hin Hk]]. exists a'. auto.
      * intros [a' [[<- | Hin] Hk]]; [contradiction | eauto].
Qed.

Lemma located_in_registry b target a :
  In a (locatedAncestors b target) -> exists name, In (name, a) (_types b).
Proof.
  unfold locatedAncestors. rewrite defined_in, in_map_iff.
  intros [c [Hfind _]]. apply find_some in Hfind. destruct Hfind as [Hin _].
  apply in_map_iff in Hin. destruct Hin as [[name a'] [Heq Hin]].
  simpl in Heq. subst a'. now exists name.
Qed.

Lemma mapM_inv {A B : Type} (f : A -> M B) (xs : list A) :
  forall ys b b',
    mapM f xs b = (Ok ys, b') ->
    Forall2 (fun x y => exists b1 b2, f x b1 = (Ok y, b2)) xs ys.
Proof.
  induction xs as [| x xs IH]; intros ys b b' H; simpl in H.
  - unfold ret in H. inversion H. constructor.
  - apply bind_inv_ok in H. destruct H as [y [b1 [Hy H]]].
    apply bind_inv_ok in H. destruct H as [ys' [b2 [Hys Hret]]].
    unfold ret in Hret. inversion Hret. subst. constructor; eauto.
Qed.

(** The function [getFields] returns yields one entry per inherited field
    record, under the record's key. *)
Lemma getFields_names tables info converter b configs b' :
  getFields tables info converter b = (Ok configs, b') ->
  exists fields,
    inheritedFields info b = (Ok fields, b)
    /\ forall name, In name (Hash.keys configs) <-> In name (Hash.keys fields).
Proof.
  unfold getFields. intros H.
  apply bind_inv_ok in H. destruct H as [fields [b1 [Hf H]]].
  pose proof (readOnly_inheritedFields info b) as Hro. rewrite Hf in Hro. simpl in Hro.
  subst b1. exists fields. split; [exact Hf |].
  apply bind_inv_ok in H. destruct H as [converted [b2 [Hc Hret]]].
  unfold ret in Hret. inversion Hret. subst configs b2. clear Hret.
  apply mapM_inv in Hc. intros name. rewrite hash_keys_spread_all. simpl.
  split.
  - intros [[] | [h [Hin Hk]]].
    clear Hf. induction Hc as [| x y xs ys Hxy Hrest IH]; [destruct Hin |].
    destruct Hin as [<- | Hin].
    + destruct Hxy as [b1 [b2 Hxy]].
      apply bind_inv_ok in Hxy. destruct Hxy as [t [b3 [_ Hxy]]].
      apply bind_inv_ok in Hxy. destruct Hxy as [a [b4 [_ Hxy]]].
      unfold ret in Hxy. inversion Hxy. subst y. simpl in Hk.
      destruct Hk as [<- | []]. now left.
    + right. now apply IH.
  - intros Hin. right.
    clear Hf. induction Hc as [| x y xs ys Hxy Hrest IH]; [destruct Hin |].
    destruct Hin as [<- | Hin].
    + exists y. split; [now left |].
      destruct Hxy as [b1 [b2 Hxy]].
      apply bind_inv_ok in Hxy. destruct Hxy as [t [b3 [_ Hxy]]].
      apply bind_inv_ok in Hxy. destruct Hxy as [a [b4 [_ Hxy]]].
      unfold ret in Hxy. inversion Hxy. now left.
    + destruct (IH Hin) as [h [Hh Hk]]. exists h. split; [now right | exact Hk].
Qed.

(** C4, as amended.  The field records [build] assembles for a type are the
    union of the field maps of the ancestors in its inheritance chain that
    [findByClass] locates (the classes bound to a record by a class-level
    annotation), merged root-to-self: every name occurs once, and with the
    record of the nearest located ancestor that declares it.  The fields the
    type's thunk yields carry exactly these names. *)
Theorem inherited_fields_merge :
  forall (b : SchemaBuilder) (info : TypeInfo) (target : Class),
    uniqueFieldNames b ->
    ti_target info = Some target ->
    exists fields,
      inheritedFields info b = (Ok fields, b)
      /\ NoDup (Hash.keys fields)
      /\ (forall name,
             Hash.get fields name = nearestDeclaration (locatedAncestors b target) name)
      /\ (forall name,
             In name (Hash.keys fields) <->
             exists a, In a (locatedAncestors b target)
                       /\ In name (Hash.keys (ti_fields a)))
      /\ (forall tables converter configs b',
             getFields tables info converter b = (Ok configs, b') ->
             forall name, In name (Hash.keys configs) <-> In name (Hash.keys fields)).
Proof.
  intros b info target Huniq Ht.
  assert (Hget : forall name,
             Hash.get (fold_left Hash.spread
                         (map ti_fields (rev (locatedAncestors b target))) []) name
             = nearestDeclaration (locatedAncestors b target) name).
  { intros name. apply merged_get_nearest. intros a Hin.
    destruct (located_in_registry _ _ _ Hin) as [n Hn]. exact (Huniq _ _ Hn). }
  eexists. split; [exact (inheritedFields_run _ _ _ Ht) |]. split; [| split; [| split]].
  - apply hash_nodup_spread_all. constructor.
  - exact Hget.
  - intros name. rewrite <- hash_get_in_keys, Hget. apply nearestDeclaration_keys.
  - intros tables converter configs b' Hrun.
    destruct (getFields_names _ _ _ _ _ _ Hrun) as [fields [Hf Hnames]].
    rewrite (inheritedFields_run _ _ _ Ht) in Hf. inversion Hf. subst fields.
    exact Hnames.
Qed.

Lemma sample_unique_field_names : uniqueFieldNames (Sample.after Sample.decoratedBase).
Proof.
  intros name info Hin. vm_compute in Hin.
  destruct Hin as [[= <- <-] | [[= <- <-] | []]]; simpl;
    repeat constructor; simpl; intuition discriminate.
Qed.

Lemma inherited_fields_merge_witness :
  exists fields,
    inheritedFields (infoOf (Sample.after Sample.decoratedBase) Sample.Derived)
                    (Sample.after Sample.decoratedBase)
    = (Ok fields, Sample.after Sample.decoratedBase)
    /\ NoDup (Hash.keys fields)
    /\ (forall name,
           Hash.get fields name
           = nearestDeclaration
               (locatedAncestors (Sample.after Sample.decoratedBase) Sample.Derived) name)
    /\ (forall name,
           In name (Hash.keys fields) <->
           exists a, In a (locatedAncestors (Sample.after Sample.decoratedBase)
                                            Sample.Derived)
                     /\ In name (Hash.keys (ti_fields a)))
    /\ (forall tables converter configs b',
           getFields tables
                     (infoOf (Sample.after Sample.decoratedBase) Sample.Derived)
                     converter (Sample.after Sample.decoratedBase) = (Ok configs, b') ->
           forall name, In name (Hash.keys configs) <-> In name (Hash.keys fields)).
Proof.
  apply (inherited_fields_merge (Sample.after Sample.decoratedBase)
           (infoOf (Sample.after Sample.decoratedBase) Sample.Derived) Sample.Derived).
  - exact sample_unique_field_names.
  - reflexivity.
Defined.

(** C4, as stated, fails: [Base] is in the inheritance chain of [Derived]
    and its own field map holds [a], yet the fields assembled for [Derived]
    do not, because no class-level annotation bound [Base] to its record. *)
Lemma undecorated_ancestor_skipped :
  ~ (forall (b : SchemaBuilder) (info : TypeInfo) (target : Class) fields,
        ti_target info = Some target ->
        inheritedFields info b = (Ok fields, b) ->
        forall c name,
          In c (getInheritanceTree target) ->
          In name (Hash.keys (ti_fields (infoOf b c))) ->
          In name (Hash.keys fields)).
Proof.
  intros H.
  specialize (H (Sample.after Sample.undecoratedBase)
                (infoOf (Sample.after Sample.undecoratedBase) Sample.Derived)
                Sample.Derived _ eq_refl eq_refl Sample.Base "a").
  assert (Hchain : In Sample.Base (getInheritanceTree Sample.Derived)).
  { right. now left. }
  assert (Hown : In "a" (Hash.keys (ti_fields (infoOf (Sample.after Sample.undecoratedBase)
                                                      Sample.Base)))).
  { now left. }
  specialize (H Hchain Hown). vm_compute in H.
  destruct H as [H | H]; [discriminate H | exact H].
Qed.

(** ** The root objects *)

Lemma addOperations_nil tables (operations : Hash.t ResolverInfo) :
  forall acc b acc' b',
    addOperations tables operations acc b = (Ok acc', b') ->
    (acc' = [] <-> acc = [] /\ operations = []).
Proof.
  unfold addOperations.
  induction operations as [| [key value] operations IH]; intros acc b acc' b' H; simpl in H.
  - unfold ret in H. inversion H. subst. intuition.
  - apply bind_inv_ok in H. destruct H as [acc1 [b1 [Hstep Hrest]]].
    apply bind_inv_ok in Hstep. destruct Hstep as [config [b2 [_ Hret]]].
    unfold ret in Hret. inversion Hret. subst acc1 b2.
    apply IH in Hrest. split.
    + intros Hnil. apply Hrest in Hnil. destruct Hnil as [Hset _].
      now apply hash_set_not_nil in Hset.
    + intros [_ Hc]. discriminate Hc.
Qed.

Lemma collectOperations_step tables acc entry b acc' b' :
  collectOperations tables acc entry b = (Ok acc', b') ->
  (op_queries acc' = [] <-> op_queries acc = [] /\ ti_queries (snd entry) = [])
  /\ (op_mutations acc' = [] <-> op_mutations acc = [] /\ ti_mutations (snd entry) = [])
  /\ (op_subscriptions acc' = [] <->
      op_subscriptions acc = [] /\ ti_subscriptions (snd entry) = []).
Proof.
  unfold collectOperations. intros H.
  apply bind_inv_ok in H. destruct H as [q [bq [Hq H]]].
  apply bind_inv_ok in H. destruct H as [m [bm [Hm H]]].
  apply bind_inv_ok in H. destruct H as [s [bs [Hs Hret]]].
  unfold ret in Hret. inversion Hret. subst acc' b'. simpl.
  apply addOperations_nil in Hq, Hm, Hs. auto.
Qed.

(** One of the three maps stays empty through the outer loop exactly when
    it started empty and no record contributes to it. *)
Lemma collectOperations_nil tables (component : Operations -> Hash.t GraphQLFieldConfig)
      (sel : TypeInfo -> Hash.t ResolverInfo) :
  (forall acc entry b acc' b',
      collectOperations tables acc entry b = (Ok acc', b') ->
      (component acc' = [] <-> component acc = [] /\ sel (snd entry) = [])) ->
  forall (ts : Hash.t TypeInfo) ops b ops' b',
    foldM (collectOperations tables) ts ops b = (Ok ops', b') ->
    (component ops' = [] <->
     component ops = [] /\ forall name info, In (name, info) ts -> sel info = []).
Proof.
  intros Hstep. induction ts as [| [name info] ts IH]; intros ops b ops' b' H; simpl in H.
  - unfold ret in H. inversion H. subst. split.
    + intros Hnil. split; [exact Hnil | intros ? ? []].
    + now intros [Hnil _].
  - apply bind_inv_ok in H. destruct H as [ops1 [b1 [Hone Hrest]]].
    apply Hstep in Hone. apply IH in Hrest. simpl in Hone.
    rewrite Hrest, Hone. split.
    + intros [[Hnil Hinfo] Hall]. split; [exact Hnil |].
      intros n i [[= <- <-] | Hin]; eauto.
    + intros [Hnil Hall]. split; [split |].
      * exact Hnil.
      * apply (Hall name info). now left.
      * intros n i Hin. apply (Hall n i). now right.
Qed.

Lemma optionalRoot_some name (fields : Hash.t GraphQLFieldConfig) :
  optionalRoot name fields <> None <-> fields <> [].
Proof.
  unfold optionalRoot. destruct fields; simpl; split; congruence.
Qed.

Lemma anyOperation_iff sel b :
  anyOperation sel b <-> ~ (forall name info, In (name, info) (_types b) -> sel info = []).
Proof.
  unfold anyOperation. split.
  - intros [name [info [Hin Hne]]] Hall. apply Hne. eauto.
  - intros Hnot. induction (_types b) as [| [name info] ts IH].
    + exfalso. apply Hnot. intros ? ? [].
    + destruct (sel info) eqn:E.
      * destruct IH as [n [i [Hin Hne]]].
        { intros Hall. apply Hnot. intros n i [[= <- <-] | Hin]; eauto. }
        exists n, i. split; [now right | exact Hne].
      * exists name, info. split; [now left | congruence].
Qed.

Lemma collectOperations_none tables (ts : Hash.t TypeInfo) :
  (forall name info, In (name, info) ts ->
     ti_queries info = [] /\ ti_mutations info = [] /\ ti_subscriptions info = []) ->
  forall ops b,
    foldM (collectOperations tables) ts ops b = (Ok ops, b).
Proof.
  induction ts as [| [name info] ts IH]; intros Hnone ops b; simpl; [reflexivity |].
  destruct (Hnone name info (or_introl eq_refl)) as [Hq [Hm Hs]].
  unfold bind at 1. unfold collectOperations at 1. simpl.
  rewrite Hq, Hm, Hs. simpl. unfold bind, ret. destruct ops.
  apply IH. intros n i Hin. apply (Hnone n i). now right.
Qed.

(** C6.  In the schema [build] returns, the Query root is always there;
    the Mutation root is there exactly when some record of the registry
    holds a mutation, and the Subscription root exactly when some record
    holds a subscription.  On a registry without any operation [build] does
    return, with an empty Query root and no other root. *)
Theorem root_objects_present :
  forall (b : SchemaBuilder),
    (forall b' s,
        build b = (Ok s, b') ->
        s_query s <> None
        /\ (s_mutation s <> None <-> anyOperation ti_mutations b)
        /\ (s_subscription s <> None <-> anyOperation ti_subscriptions b))
    /\ ((forall name info, In (name, info) (_types b) ->
           ti_queries info = [] /\ ti_mutations info = []
           /\ ti_subscriptions info = []) ->
        exists s,
          build b = (Ok s, b)
          /\ s_query s = Some (rootObject "Query" [])
          /\ s_mutation s = None
          /\ s_subscription s = None).
Proof.
  intros b. split.
  - intros b' s H. apply build_inv in H. destruct H as [ops [b1 [Hops ->]]]. simpl.
    pose proof (collectOperations_nil _ op_mutations ti_mutations
                  (fun acc entry b0 acc' b0' H =>
                     proj1 (proj2 (collectOperations_step _ _ _ _ _ _ H)))
                  _ _ _ _ _ Hops) as Hm.
    pose proof (collectOperations_nil _ op_subscriptions ti_subscriptions
                  (fun acc entry b0 acc' b0' H =>
                     proj2 (proj2 (collectOperations_step _ _ _ _ _ _ H)))
                  _ _ _ _ _ Hops) as Hs.
    simpl in Hm, Hs. split; [discriminate |]. split.
    + rewrite optionalRoot_some, anyOperation_iff. split.
      * intros Hne Hall. apply Hne. apply Hm. auto.
      * intros Hnot Hnil. apply Hnot. now apply Hm.
    + rewrite optionalRoot_some, anyOperation_iff. split.
      * intros Hne Hall. apply Hne. apply Hs. auto.
      * intros Hnot Hnil. apply Hnot. now apply Hs.
  - intros Hnone. eexists. split.
    + unfold build, enums, types, gets, bind at 1 2 3. simpl.
      unfold bind. rewrite (collectOperations_none _ _ Hnone). reflexivity.
    + repeat split.
Qed.

Lemma root_objects_present_witness :
  (exists s,
      build (Sample.after Sample.queryAndMutation)
      = (Ok s, Sample.after Sample.queryAndMutation)
      /\ s_query s <> None
      /\ (s_mutation s <> None
          <-> anyOperation ti_mutations (Sample.after Sample.queryAndMutation))
      /\ (s_subscription s <> None
          <-> anyOperation ti_subscriptions (Sample.after Sample.queryAndMutation)))
  /\ (exists s,
         build newSchemaBuilder = (Ok s, newSchemaBuilder)
         /\ s_query s = Some (rootObject "Query" [])
         /\ s_mutation s = None
         /\ s_subscription s = None).
Proof.
  split.
  - eexists. split; [cbv; reflexivity |].
    refine (proj1 (root_objects_present (Sample.after Sample.queryAndMutation))
              (Sample.after Sample.queryAndMutation) _ _).
    reflexivity.
  - apply (proj2 (root_objects_present newSchemaBuilder)).
    intros name info [].
Defined.



(** ** Property annotations *)

Lemma hash_set_set {V : Type} (h : Hash.t V) k v v' :
  Hash.set (Hash.set h k v) k v' = Hash.set h k v'.
Proof.
  induction h as [| [k0 v0] h IH]; simpl.
  - now rewrite String.eqb_refl.
  - destruct (String.eqb k k0) eqn:E; simpl; rewrite E; [reflexivity | now rewrite IH].
Qed.

Lemma onField_run typeName name f b :
  Decorators.onField typeName name f b = (Ok tt, writeField typeName name f b).
Proof.
  unfold Decorators.onField, getOrAddField, getOrAddType, assignField, assignType,
    bind, modify, ret, writeField, typeRecord.
  destruct b as [ts es]. unfold set_types, set_ti_fields. simpl.
  repeat first [rewrite hash_get_set_same | rewrite hash_set_set | progress simpl].
  reflexivity.
Qed.

Lemma typeRecord_writeField typeName name f b :
  typeRecord (writeField typeName name f b) typeName
  = set_ti_fields
      (Hash.set (ti_fields (typeRecord b typeName)) name
         (f match Hash.get (ti_fields (typeRecord b typeName)) name with
            | Some field => field
            | None => emptyField name
            end))
      (typeRecord b typeName).
Proof.
  unfold writeField. unfold typeRecord at 1. simpl. now rewrite hash_get_set_same.
Qed.

Lemma writeField_writeField typeName name f g b :
  writeField typeName name g (writeField typeName name f b)
  = writeField typeName name (fun x => g (f x)) b.
Proof.
  unfold writeField at 1. rewrite typeRecord_writeField. simpl.
  rewrite hash_get_set_same. unfold writeField. simpl.
  unfold set_types. simpl. now rewrite !hash_set_set.
Qed.

Lemma writeField_kind typeName name f b :
  ti_kind (typeRecord (writeField typeName name f b) typeName)
  = ti_kind (typeRecord b typeName).
Proof. now rewrite typeRecord_writeField. Qed.

Lemma writeField_after_getOrAddType typeName name f b :
  writeField typeName name f (snd (getOrAddType typeName b))
  = writeField typeName name f b.
Proof.
  unfold getOrAddType, writeField, typeRecord. simpl.
  rewrite hash_get_set_same. unfold set_types. simpl.
  rewrite hash_set_set. destruct (Hash.get (_types b) typeName); reflexivity.
Qed.

(** One annotation rewrites the one field record. *)
Lemma annotate_run constructor propertyName a b :
  annotate constructor propertyName a b
  = (Ok tt,
     writeField (c_name constructor) propertyName
       (effect (ti_kind (typeRecord b (c_name constructor))) a) b).
Proof.
  destruct a as [type args | text | resolver | type args | |]; simpl;
    try apply onField_run.
  - unfold Decorators.field, bind at 1.
    assert (Hget : getOrAddType (c_name constructor) b
                   = (Ok (typeRecord b (c_name constructor)),
                      snd (getOrAddType (c_name constructor) b))) by reflexivity.
    rewrite Hget. unfold bind at 1. rewrite onField_run.
    rewrite writeField_after_getOrAddType. unfold effect.
    destruct args as [a' |]; [| reflexivity].
    destruct (negb (Decorators.isInput _)); [| reflexivity].
    now rewrite onField_run, writeField_writeField.
  - unfold Decorators.list, bind at 1. rewrite onField_run.
    unfold bind at 1. rewrite onField_run, writeField_writeField. unfold effect.
    destruct args as [a' |]; [| reflexivity].
    now rewrite onField_run, writeField_writeField.
Qed.

(** A list of annotations, not empty, rewrites the record by their effects
    in turn. *)
Lemma annotateAll_run constructor propertyName (l : list PropertyAnnotation) :
  forall a b,
    annotateAll constructor propertyName (a :: l) b
    = (Ok tt,
       writeField (c_name constructor) propertyName
         (effects (ti_kind (typeRecord b (c_name constructor))) (a :: l)) b).
Proof.
  unfold annotateAll.
  induction l as [| a' l IH]; intros a b.
  - simpl. unfold bind. rewrite annotate_run. reflexivity.
  - change (forEachM (annotate constructor propertyName) (a :: a' :: l))
      with (annotate constructor propertyName a ;;;
            forEachM (annotate constructor propertyName) (a' :: l)).
    unfold bind at 1. rewrite annotate_run, IH.
    now rewrite writeField_kind, writeField_writeField.
Qed.

Lemma sharesAttribute_sym a b : sharesAttribute a b = sharesAttribute b a.
Proof. destruct a, b; reflexivity. Qed.

(** Annotations that share no attribute commute on the record. *)
Lemma effect_commute kind a b f :
  sharesAttribute a b = false ->
  effect kind a (effect kind b f) = effect kind b (effect kind a f).
Proof.
  destruct a as [t1 [[a1 |] |] | ? | ? | t1 [[a1 |] |] | |],
           b as [t2 [[a2 |] |] | ? | ? | t2 [[a2 |] |] | |];
    simpl; intros H; try discriminate H;
    try destruct (negb (Decorators.isInput kind)); reflexivity.
Qed.

Lemma forallb_permutation {A : Type} (p : A -> bool) l l' :
  Permutation l l' -> forallb p l = forallb p l'.
Proof.
  intros H. induction H; simpl.
  - reflexivity.
  - now rewrite IHPermutation.
  - destruct (p x), (p y); reflexivity.
  - congruence.
Qed.

Lemma disjointAttributes_permutation l l' :
  Permutation l l' -> disjointAttributes l = disjointAttributes l'.
Proof.
  intros H. induction H; simpl.
  - reflexivity.
  - now rewrite IHPermutation, (forallb_permutation _ _ _ H).
  - rewrite (sharesAttribute_sym x y).
    destruct (sharesAttribute y x), (forallb _ l), (forallb _ l); reflexivity.
  - congruence.
Qed.

Lemma effects_permutation kind l l' :
  Permutation l l' -> disjointAttributes l = true ->
  forall f, effects kind l f = effects kind l' f.
Proof.
  unfold effects. intros H. induction H; intros Hd f; simpl.
  - reflexivity.
  - simpl in Hd. apply andb_prop in Hd. now apply IHPermutation.
  - simpl in Hd. apply andb_prop in Hd. destruct Hd as [Hy _].
    apply andb_prop in Hy. destruct Hy as [Hyx _].
    apply Bool.negb_true_iff in Hyx.
    now rewrite (effect_commute kind y x f Hyx).
  - rewrite IHPermutation1 by exact Hd. apply IHPermutation2.
    now rewrite <- (disjointAttributes_permutation _ _ H).
Qed.

Lemma writeField_ext typeName name f g b :
  (forall x, f x = g x) -> writeField typeName name f b = writeField typeName name g b.
Proof. intros H. unfold writeField. now rewrite H. Qed.

(** C7, as amended.  Annotations of one property that assign no attribute
    in common (any of description, resolve, nonNull and nonNullItems, with
    at most one of field and list) leave the same registry, and so the same
    field record, in whatever order they are applied; any two of them
    commute. *)
Theorem property_annotations_commute :
  forall (constructor : Class) (propertyName : string)
         (l l' : list PropertyAnnotation) (b : SchemaBuilder),
    Permutation l l' ->
    disjointAttributes l = true ->
    annotateAll constructor propertyName l b = annotateAll constructor propertyName l' b
    /\ fieldRecord (snd (annotateAll constructor propertyName l b))
                   (c_name constructor) propertyName
       = fieldRecord (snd (annotateAll constructor propertyName l' b))
                     (c_name constructor) propertyName.
Proof.
  intros constructor propertyName l l' b Hperm Hd.
  assert (Heq : annotateAll constructor propertyName l b
                = annotateAll constructor propertyName l' b).
  { destruct l as [| a l].
    - apply Permutation_nil in Hperm. now subst l'.
    - destruct l' as [| a' l'].
      + apply Permutation_sym, Permutation_nil in Hperm. discriminate Hperm.
      + rewrite !annotateAll_run. f_equal. apply writeField_ext.
        now apply effects_permutation. }
  split; [exact Heq | now rewrite Heq].
Qed.

Lemma property_annotations_commute_witness :
  annotateAll Sample.Test "list"
    [ANonNull; ANonNullItems; AList (TGraphQL Sample.GraphQLInt) None; ADescription "d"]
    newSchemaBuilder
  = annotateAll Sample.Test "list"
      [AList (TGraphQL Sample.GraphQLInt) None; ADescription "d"; ANonNullItems; ANonNull]
      newSchemaBuilder.
Proof.
  refine (proj1 (property_annotations_commute Sample.Test "list"
                   [ANonNull; ANonNullItems; AList (TGraphQL Sample.GraphQLInt) None;
                    ADescription "d"]
                   [AList (TGraphQL Sample.GraphQLInt) None; ADescription "d";
                    ANonNullItems; ANonNull]
                   newSchemaBuilder _ eq_refl)).
  apply (Permutation_cons_app
           [AList (TGraphQL Sample.GraphQLInt) None; ADescription "d"; ANonNullItems]
           [] ANonNull).
  apply (Permutation_cons_app
           [AList (TGraphQL Sample.GraphQLInt) None; ADescription "d"] [] ANonNullItems).
  apply Permutation_refl.
Defined.

(** C7, as stated, fails: [field] and [list] both assign [type], so the
    record depends on which of the two is applied last. *)
Lemma field_and_list_do_not_commute :
  ~ (forall (constructor : Class) (propertyName : string)
            (l l' : list PropertyAnnotation) (b : SchemaBuilder),
        Permutation l l' ->
        distinctSorts l = true ->
        fieldRecord (snd (annotateAll constructor propertyName l b))
                    (c_name constructor) propertyName
        = fieldRecord (snd (annotateAll constructor propertyName l' b))
                      (c_name constructor) propertyName).
Proof.
  intros H.
  specialize (H Sample.Test "p"
                [AField (TGraphQL Sample.GraphQLString) None;
                 AList (TGraphQL Sample.GraphQLInt) None]
                [AList (TGraphQL Sample.GraphQLInt) None;
                 AField (TGraphQL Sample.GraphQLString) None]
                newSchemaBuilder (perm_swap _ _ _) eq_refl).
  vm_compute in H. discriminate H.
Qed.

(** * Further properties *)

(** ** The inheritance chain *)

(** Induction along the prototype links of a class. *)
Lemma class_induction (P : Class -> Prop) :
  (forall i n s, P (mkClass i n s None)) ->
  (forall i n s p, P p -> P (mkClass i n s (Some p))) ->
  forall c, P c.
Proof.
  intros Hroot Hstep. fix IH 1. intros [i n s [p |]].
  - apply Hstep. apply IH.
  - apply Hroot.
Qed.

Lemma last_cons_default {A : Type} (l : list A) (a d : A) :
  last (a :: l) d = last l a.
Proof.
  revert a d. induction l as [| x l IH]; intros a d; [reflexivity |].
  change (last (a :: x :: l) d) with (last (x :: l) d).
  now rewrite (IH x d), (IH x a).
Qed.

Lemma getPrototypeOf_chain (c : Class) :
  forallb named (getPrototypeOf c) = true
  /\ prototypeChain (c :: getPrototypeOf c)
  /\ match c_proto (last (getPrototypeOf c) c) with
     | Some p => named p = false
     | None => True
     end.
Proof.
  induction c as [i n s | i n s p IH] using class_induction; simpl.
  - auto.
  - fold (named p). destruct (named p) eqn:Hp.
    + destruct IH as [Hnamed [Hchain Hlast]].
      split; [| split].
      * simpl. now rewrite Hp, Hnamed.
      * split; [reflexivity | exact Hchain].
      * now rewrite last_cons_default.
    + simpl. auto.
Qed.

(** X1.  The chain [getInheritanceTree] returns starts with the class
    itself; each class in it is followed by its prototype; every class after
    the first has a name; and it ends at the first class whose prototype is
    not a class or has no name. *)
Theorem inheritance_tree_shape :
  forall (entity : Class),
    hd_error (getInheritanceTree entity) = Some entity
    /\ prototypeChain (getInheritanceTree entity)
    /\ forallb named (tl (getInheritanceTree entity)) = true
    /\ match c_proto (last (getInheritanceTree entity) entity) with
       | Some p => named p = false
       | None => True
       end.
Proof.
  intros entity. destruct (getPrototypeOf_chain entity) as [Hnamed [Hchain Hlast]].
  unfold getInheritanceTree. repeat split; try assumption.
  simpl. destruct (getPrototypeOf entity); assumption.
Qed.

(** ** Type records *)



Lemma getOrAddType_run name b :
  getOrAddType name b = (Ok (typeRecord b name), writeType name (fun t => t) b).
Proof. reflexivity. Qed.

Lemma typeRecord_writeType name f b :
  typeRecord (writeType name f b) name = f (typeRecord b name).
Proof. unfold writeType. unfold typeRecord at 1. simpl. now rewrite hash_get_set_same. Qed.


Lemma assignType_writeType name f g b :
  assignType name g (writeType name f b)
  = (Ok tt, writeType name (fun t => g (f t)) b).
Proof.
  unfold assignType, modify, writeType. simpl. rewrite hash_get_set_same.
  unfold set_types. simpl. now rewrite hash_set_set.
Qed.





(** ** What a property annotation leaves alone *)






(** ** Class-level declarations *)

Ltac run_on_record :=
  repeat (unfold bind at 1;
          first [ rewrite getOrAddType_run | rewrite assignType_writeType ]).

(** A class-level declaration rewrites the record under the name of its
    class by one function. *)
Lemma class_declaration_run d kind object b :
  classLevel d = Some (kind, object) ->
  exists f,
    declare d b = (Ok tt, writeType (c_name object) f b)
    /\ forall t,
         ti_kind (f t) = Some kind
         /\ ti_target (f t) = Some object
         /\ ti_description (f t)
            = match assignedDescription d with
              | Some description => description
              | None => ti_description t
              end
         /\ ti_name (f t) = ti_name t
         /\ ti_fields (f t) = ti_fields t
         /\ ti_queries (f t) = ti_queries t
         /\ ti_mutations (f t) = ti_mutations t
         /\ ti_subscriptions (f t) = ti_subscriptions t.
Proof.
  destruct d as [| [a |] o | [a |] o | [a |] o | a o | | | |]; simpl;
    intros H; inversion H; subst; clear H;
    unfold Decorators.interface, Decorators.type, Decorators.input, Decorators.scalar;
    run_on_record;
    try rewrite getOrAddType_run; try rewrite assignType_writeType;
    (eexists; split; [reflexivity | intros t; simpl; repeat split]).
Qed.



(** ** Classes and their records *)

Lemma class_eqb_eq (a b : Class) : class_eqb a b = true -> a = b.
Proof.
  revert b. induction a as [i n s | i n s p IH] using class_induction;
    intros [i' n' s' [p' |]]; simpl; intros H;
    repeat (apply andb_prop in H; destruct H as [H ?]);
    try discriminate;
    repeat match goal with
           | E : (_ =? _) = true |- _ => apply Nat.eqb_eq in E
           | E : String.eqb _ _ = true |- _ => apply String.eqb_eq in E
           end; subst; try reflexivity.
  f_equal. f_equal. now apply IH.
Qed.

Lemma class_eqb_refl (a : Class) : class_eqb a a = true.
Proof.
  induction a as [i n s | i n s p IH] using class_induction; simpl;
    rewrite Nat.eqb_refl, !String.eqb_refl; [reflexivity | exact IH].
Qed.

Lemma hash_in_get {V : Type} (h : Hash.t V) k v :
  NoDup (Hash.keys h) -> In (k, v) h -> Hash.get h k = Some v.
Proof.
  induction h as [| [k0 v0] h IH]; simpl; intros Hnd Hin; [destruct Hin |].
  inversion Hnd as [| ? ? Hnotin Hnd']; subst.
  destruct Hin as [[= -> ->] | Hin].
  - now rewrite String.eqb_refl.
  - destruct (String.eqb k k0) eqn:E; [| now apply IH].
    apply String.eqb_eq in E. subst k0. exfalso. apply Hnotin.
    unfold Hash.keys. apply in_map_iff. now exists (k, v).
Qed.

Lemma wellFormed_getOrAddType name : preserves wellFormed (getOrAddType name).
Proof.
  intros b [Hnd Hrec]. unfold getOrAddType. simpl. split.
  - now apply hash_nodup_set.
  - intros n i Hin. apply hash_in_set in Hin.
    destruct Hin as [[-> ->] | Hin]; [| now apply Hrec].
    destruct (Hash.get (_types b) name) as [t |] eqn:E.
    + apply hash_get_in in E. now apply Hrec.
    + split; [reflexivity | discriminate].
Qed.

Lemma wellFormed_assignType name f :
  (forall t, ti_name (f t) = ti_name t) ->
  (forall t c, ti_target (f t) = Some c -> ti_target t = Some c \/ c_name c = name) ->
  preserves wellFormed (assignType name f).
Proof.
  intros Hname Htarget b [Hnd Hrec]. unfold assignType, modify. simpl.
  destruct (Hash.get (_types b) name) as [t |] eqn:E; [| now split].
  simpl. split; [now apply hash_nodup_set |].
  intros n i Hin. apply hash_in_set in Hin.
  destruct Hin as [[-> ->] | Hin]; [| now apply Hrec].
  apply hash_get_in in E. destruct (Hrec _ _ E) as [Hn Hc]. split.
  - now rewrite Hname.
  - intros c Hc'. apply Htarget in Hc'. destruct Hc' as [Hc' | Hc']; auto.
Qed.

Lemma wellFormed_enums_only (m : M unit) :
  (forall b, _types (snd (m b)) = _types b) -> preserves wellFormed m.
Proof. intros H b Hwf. unfold wellFormed. now rewrite H. Qed.

Lemma wellFormed_onField typeName name f :
  preserves wellFormed (Decorators.onField typeName name f).
Proof.
  unfold Decorators.onField. apply preserves_bind; [| intros _].
  - unfold getOrAddField.
    apply preserves_bind; [apply wellFormed_getOrAddType | intros type].
    apply preserves_bind; [| intros _; apply preserves_ret].
    apply wellFormed_assignType; intros; simpl in *; auto.
  - unfold assignField. apply wellFormed_assignType; intros t;
      destruct (Hash.get (ti_fields t) name); simpl; auto.
Qed.

Lemma decorateEnum_types object args b :
  _types (snd (Decorators.decorateEnum object args b)) = _types b.
Proof.
  destruct (Decorators.decorateEnum object args b) as [[[] | e] b'] eqn:Hrun.
  - destruct (decorateEnum_inv _ _ _ _ Hrun) as [n [start [_ [_ [_ ->]]]]]. reflexivity.
  - simpl. unfold Decorators.decorateEnum in Hrun.
    assert (Hstate : forall (m : M unit) b0,
               (forall b1, _types (snd (m b1)) = _types b1) ->
               _types (snd (m b0)) = _types b0) by auto.
    assert (Hassign : forall f b0, _types (snd (assignEnum object f b0)) = _types b0).
    { intros f b0. unfold assignEnum, modify. simpl.
      now destruct (EnumMap.get (_enums b0) object). }
    assert (Hloop : forall values b0,
               _types (snd (forEachM
                              (fun nv => assignEnum object
                                           (Decorators.decorateValue (fst nv) (snd nv)))
                              values b0)) = _types b0).
    { induction values as [| [n v] values IH]; intros b0; simpl; [reflexivity |].
      unfold bind. specialize (Hassign (Decorators.decorateValue n v) b0).
      destruct (assignEnum object _ b0) as [[[] | e0] b1]; simpl in *.
      - now rewrite IH.
      - exact Hassign. }
    assert (Hget : _types (snd (getOrAddEnum object (ea_name args) b)) = _types b).
    { unfold getOrAddEnum. destruct (ea_name args) as [n |]; [| reflexivity].
      destruct (_ || _); [reflexivity |].
      unfold bind, gets, liftResult, modify, ret. simpl.
      destruct (EnumMap.get (_enums b) object); [reflexivity |].
      destruct (reduce1 _ _); reflexivity. }
    unfold bind in Hrun at 1.
    destruct (getOrAddEnum object (ea_name args) b) as [[info | e0] b1]; simpl in Hget.
    + unfold bind in Hrun at 1. specialize (Hassign (set_ei_description (ea_description args)) b1).
      destruct (assignEnum object _ b1) as [[[] | e1] b2]; simpl in Hassign.
      * destruct (ea_values args) as [values |].
        -- specialize (Hloop values b2). rewrite Hrun in Hloop. simpl in Hloop. congruence.
        -- inversion Hrun.
      * inversion Hrun. congruence.
    + inversion Hrun. congruence.
Qed.

Ltac keeps_wellFormed :=
  repeat match goal with
         | |- forall _, _ => intro
         | |- preserves _ (bind _ _) => apply preserves_bind
         | |- preserves _ (ret _) => apply preserves_ret
         | |- preserves _ (Decorators.onField _ _ _) => apply wellFormed_onField
         | |- preserves _ (getOrAddType _) => apply wellFormed_getOrAddType
         | |- preserves _ (assignType _ _) =>
             apply wellFormed_assignType;
             [ intros; reflexivity
             | intros ? ? Ht; simpl in Ht; first [now left | right; congruence] ]
         | |- preserves _ (match ?x with _ => _ end) => destruct x
         | |- preserves _ (if ?c then _ else _) => destruct c
         end.

Lemma wellFormed_declare d : preserves wellFormed (declare d).
Proof.
  destruct d as [c p a | args o | args o | args o | args o | args c m d | args c m d
                 | args c m d | o args]; simpl.
  - destruct a; simpl;
      unfold Decorators.field, Decorators.description, Decorators.resolve,
        Decorators.list, Decorators.nonNull, Decorators.nonNullItems; keeps_wellFormed.
  - unfold Decorators.interface. keeps_wellFormed.
  - unfold Decorators.type. keeps_wellFormed.
  - unfold Decorators.input. keeps_wellFormed.
  - unfold Decorators.scalar. keeps_wellFormed.
  - unfold Decorators.query. keeps_wellFormed.
  - unfold Decorators.mutation. keeps_wellFormed.
  - unfold Decorators.subscription. keeps_wellFormed.
  - apply wellFormed_enums_only. intros b. apply decorateEnum_types.
Qed.

Lemma wellFormed_declared ds : wellFormed (declared ds).
Proof.
  apply (preserves_forEachM wellFormed declare ds wellFormed_declare).
  split; [constructor | intros n i []].
Qed.

(** In a well-formed registry a class is bound to one record at most, the
    one under its name. *)
Lemma bound_record_unique b c n i :
  wellFormed b -> In (n, i) (_types b) -> ti_target i = Some c ->
  n = c_name c /\ Hash.get (_types b) (c_name c) = Some i.
Proof.
  intros [Hnd Hrec] Hin Ht. destruct (Hrec _ _ Hin) as [_ Hc].
  specialize (Hc c Ht). subst n. split; [reflexivity | now apply hash_in_get].
Qed.

Lemma findByClass_sound b c t :
  wellFormed b ->
  fst (findByClass c b) = Ok (Some t) ->
  Hash.get (_types b) (c_name c) = Some t /\ ti_target t = Some c.
Proof.
  intros Hwf Hfind. unfold findByClass, gets in Hfind. simpl in Hfind.
  injection Hfind as Hf. apply find_some in Hf. destruct Hf as [Hin Htarget].
  unfold targetIs in Htarget. destruct (ti_target t) as [c' |] eqn:Ht; [| discriminate].
  apply class_eqb_eq in Htarget. subst c'.
  apply in_map_iff in Hin. destruct Hin as [[n i] [Heq Hin]]. simpl in Heq. subst i.
  destruct (bound_record_unique _ _ _ _ Hwf Hin Ht) as [_ Hget]. now split.
Qed.

(** X5.  Whatever program of declarations fills the registry, type names
    stay unique and a class is bound to one record at most: when
    [findByClass] finds a record for a class it is the record under the
    class's name, and no other record has that class as its target.  After a
    class-level declaration on a class, [findByClass] does find its record. *)
Theorem class_resolves_to_own_record :
  (forall ds, wellFormed (declared ds))
  /\ (forall b c t,
         wellFormed b ->
         fst (findByClass c b) = Ok (Some t) ->
         Hash.get (_types b) (c_name c) = Some t
         /\ ti_target t = Some c
         /\ forall n i, In (n, i) (_types b) -> ti_target i = Some c ->
                        n = c_name c /\ i = t)
  /\ (forall b d kind object,
         wellFormed b ->
         classLevel d = Some (kind, object) ->
         fst (findByClass object (snd (declare d b)))
         = Ok (Some (typeRecord (snd (declare d b)) (c_name object)))).
Proof.
  split; [exact wellFormed_declared |]. split.
  - intros b c t Hwf Hfind.
    destruct (findByClass_sound _ _ _ Hwf Hfind) as [Hget Ht].
    split; [exact Hget |]. split; [exact Ht |].
    intros n i Hin Hi. destruct (bound_record_unique _ _ _ _ Hwf Hin Hi) as [Hn Hget'].
    split; [exact Hn | congruence].
  - intros b d kind object Hwf Hd.
    pose proof (wellFormed_declare d b Hwf) as Hwf'.
    destruct (class_declaration_run d kind object b Hd) as [f [Hrun Hf]].
    rewrite Hrun in *. simpl in *.
    set (b' := writeType (c_name object) f b) in *.
    assert (Hrec : Hash.get (_types b') (c_name object)
                   = Some (typeRecord b' (c_name object))).
    { unfold b', typeRecord, writeType. simpl. now rewrite hash_get_set_same. }
    assert (Htarget : ti_target (typeRecord b' (c_name object)) = Some object).
    { unfold b'. rewrite typeRecord_writeType. apply Hf. }
    unfold findByClass, gets. cbn [fst].
    destruct (find (targetIs object) (map snd (_types b'))) as [t |] eqn:Hfind.
    + assert (Hsound : fst (findByClass object b') = Ok (Some t)).
      { unfold findByClass, gets. cbn [fst]. now rewrite Hfind. }
      destruct (findByClass_sound _ _ _ Hwf' Hsound) as [Hget _].
      assert (Heq : Some t = Some (typeRecord b' (c_name object))).
      { transitivity (Hash.get (_types b') (c_name object));
          [symmetry; exact Hget | exact Hrec]. }
      transitivity (Ok (A := option TypeInfo) (Some t)); [f_equal; exact Hfind | now rewrite Heq].
    + exfalso. apply hash_get_in in Hrec.
      assert (Hin : In (typeRecord b' (c_name object)) (map snd (_types b'))).
      { apply in_map_iff. now exists (c_name object, typeRecord b' (c_name object)). }
      pose proof (find_none _ _ Hfind _ Hin) as Hfalse.
      unfold targetIs in Hfalse. rewrite Htarget, class_eqb_refl in Hfalse.
      discriminate Hfalse.
Qed.

Lemma class_resolves_to_own_record_witness :
  Hash.get (_types (Sample.after Sample.decoratedBase)) "Base"
  = Some (infoOf (Sample.after Sample.decoratedBase) Sample.Base)
  /\ fst (findByClass Sample.Test (snd (declare (DType None Sample.Test) newSchemaBuilder)))
     = Ok (Some (typeRecord (snd (declare (DType None Sample.Test) newSchemaBuilder))
                            "Test")).
Proof.
  split.
  - refine (proj1 (proj1 (proj2 class_resolves_to_own_record)
                     (Sample.after Sample.decoratedBase) Sample.Base _ _ eq_refl)).
    exact (proj1 class_resolves_to_own_record
             [DProperty Sample.Base "a" (AField (TGraphQL Sample.GraphQLString) None);
              DType None Sample.Base;
              DProperty Sample.Derived "a" (AField (TGraphQL Sample.GraphQLInt) None);
              DProperty Sample.Derived "b" (AField (TGraphQL Sample.GraphQLString) None);
              DType None Sample.Derived]).
  - refine (proj2 (proj2 class_resolves_to_own_record)
              newSchemaBuilder (DType None Sample.Test) KType Sample.Test _ eq_refl).
    exact (proj1 class_resolves_to_own_record []).
Defined.

(** ** The tables of [build], record by record *)






(** ** Input references *)

Lemma inputTypeNamed_run tables name b :
  inputTypeNamed tables name b
  = (Ok (if isSome (Hash.get (tb_enums tables) name) then GEnumRef name
         else if hasScalar tables name then GScalarRef name
         else if isSome (Hash.get (tb_inputs tables) name) then GInputRef name
         else GUndefined),
     b).
Proof.
  unfold inputTypeNamed.
  destruct (isSome (Hash.get (tb_enums tables) name)); [reflexivity |].
  destruct (hasScalar tables name); reflexivity.
Qed.

Lemma convertInputType_returns tables type b :
  exists t, convertInputType tables type b = (Ok t, b).
Proof.
  destruct type as [c | name | e | t | tag]; simpl;
    try (eexists; apply inputTypeNamed_run); try (eexists; reflexivity).
  unfold bind, hasEnum, enums, gets, EnumMap.has. cbv beta iota.
  destruct (EnumMap.get (_enums b) e) as [info |] eqn:Hget; cbv beta iota.
  - rewrite Hget. eexists. apply inputTypeNamed_run.
  - eexists. reflexivity.
Qed.



(** ** Arguments *)

Lemma hash_in_spread {V : Type} (p c : Hash.t V) k v :
  In (k, v) (Hash.spread p c) -> In (k, v) p \/ In (k, v) c.
Proof.
  unfold Hash.spread. revert p. induction c as [| [k0 v0] c IH]; intros p; simpl.
  - auto.
  - intros H. apply IH in H. destruct H as [H | H]; [| now auto].
    apply hash_in_set in H. destruct H as [[-> ->] | H]; auto.
Qed.

Lemma hash_in_spread_all {V : Type} (hs : list (Hash.t V)) acc k v :
  In (k, v) (fold_left Hash.spread hs acc) ->
  In (k, v) acc \/ exists h, In h hs /\ In (k, v) h.
Proof.
  revert acc. induction hs as [| h hs IH]; intros acc; simpl; [auto |].
  intros H. apply IH in H. destruct H as [H | [h' [Hin H]]]; [| eauto].
  apply hash_in_spread in H. destruct H; eauto.
Qed.

(** A [map] over a callback that reads only and never throws. *)
Lemma mapM_returns {A B : Type} (f : A -> M B) (xs : list A) b :
  (forall x, exists y, f x b = (Ok y, b)) ->
  exists ys, mapM f xs b = (Ok ys, b) /\ Forall2 (fun x y => f x b = (Ok y, b)) xs ys.
Proof.
  intros Hf. induction xs as [| x xs [ys [Hrun Hall]]]; simpl.
  - exists []. split; [reflexivity | constructor].
  - destruct (Hf x) as [y Hy]. exists (y :: ys). split; [| now constructor].
    unfold bind. rewrite Hy, Hrun. reflexivity.
Qed.

(** X8.  [convertArguments] never throws and keeps the argument names,
    each once; every argument it returns has the default value and the
    description of the declared argument of that name, and for type what
    [convertInputType] makes of its type. *)
Theorem arguments_are_converted_one_by_one :
  forall (tables : Tables) (args : Hash.t ArgumentInfo) (b : SchemaBuilder),
  exists configs,
    convertArguments tables args b = (Ok configs, b)
    /\ NoDup (Hash.keys configs)
    /\ (forall name, In name (Hash.keys configs) <-> In name (Hash.keys args))
    /\ (forall name config,
          In (name, config) configs ->
          exists arg,
            In (name, arg) args
            /\ convertInputType tables (a_type arg) b = (Ok (ac_type config), b)
            /\ ac_defaultValue config = a_defaultValue arg
            /\ ac_description config = a_description arg).
Proof.
  intros tables args b. unfold convertArguments.
  set (f := fun na : string * ArgumentInfo => _).
  destruct (mapM_returns f args b) as [ys [Hrun Hall]].
  { intros [n a]. unfold f. simpl.
    destruct (convertInputType_returns tables (a_type a) b) as [t Ht].
    eexists. unfold bind. rewrite Ht. reflexivity. }
  eexists. split; [unfold bind; rewrite Hrun; reflexivity |].
  split; [apply hash_nodup_spread_all; constructor |]. clear Hrun. split.
  - intros name. rewrite hash_keys_spread_all. simpl. split.
    + intros [[] | [h [Hin Hk]]].
      induction Hall as [| [n a] y xs ys Hxy Hrest IH]; [destruct Hin |].
      destruct Hin as [<- | Hin]; [| right; now apply IH].
      unfold f in Hxy. apply bind_inv_ok in Hxy. destruct Hxy as [t [b1 [_ Hret]]].
      unfold ret in Hret. inversion Hret. subst y. simpl in Hk.
      destruct Hk as [<- | []]. now left.
    + intros Hin. right.
      induction Hall as [| [n a] y xs ys Hxy Hrest IH]; [destruct Hin |].
      destruct Hin as [<- | Hin].
      * exists y. split; [now left |].
        unfold f in Hxy. apply bind_inv_ok in Hxy. destruct Hxy as [t [b1 [_ Hret]]].
        unfold ret in Hret. inversion Hret. now left.
      * destruct (IH Hin) as [h [Hh Hk]]. exists h. split; [now right | exact Hk].
  - intros name config Hin. apply hash_in_spread_all in Hin.
    destruct Hin as [[] | [h [Hh Hin]]].
    induction Hall as [| [n a] y xs ys Hxy Hrest IH]; [destruct Hh |].
    destruct Hh as [<- | Hh].
    + unfold f in Hxy. simpl in Hxy.
      destruct (convertInputType_returns tables (a_type a) b) as [t Ht].
      unfold bind in Hxy. rewrite Ht in Hxy. unfold ret in Hxy. inversion Hxy. subst y.
      destruct Hin as [[= <- <-] | []]. exists a. simpl. auto.
    + destruct (IH Hh) as [arg [Harg Hrest']]. exists arg. split; [now right | exact Hrest'].
Qed.

Lemma arguments_are_converted_one_by_one_witness :
  exists configs,
    convertArguments Sample.noTables Scenario.roomArgs newSchemaBuilder
    = (Ok configs, newSchemaBuilder)
    /\ (In "room" (Hash.keys configs) <-> In "room" (Hash.keys Scenario.roomArgs)).
Proof.
  destruct (arguments_are_converted_one_by_one Sample.noTables Scenario.roomArgs
              newSchemaBuilder) as [configs [Hrun [_ [Hnames _]]]].
  exists configs. split; [exact Hrun | apply Hnames].
Defined.

(** ** Enum objects as type references *)

Lemma enummap_get_in (m : EnumMap.t) e info :
  EnumMap.get m e = Some info -> exists e', In (e', info) m.
Proof.
  induction m as [| [k v] m IH]; simpl; [discriminate |].
  destruct (enum_eqb e k).
  - intros [= ->]. exists k. now left.
  - intros H. destruct (IH H) as [e' Hin]. exists e'. now right.
Qed.

(** X9.  An enum object given as a type reference resolves, in output and
    in input position alike, to the enum type materialised under the name of
    its record when the enum was decorated; an enum object that was never
    decorated is handed through as it is, without an error. *)
Theorem enum_object_resolution :
  forall (b : SchemaBuilder) (e : EnumObject),
    (forall info,
        enumRecord b e = Some info ->
        convertOutputType (tablesOf b) (TEnumObject e) b = (Ok (GEnumRef (ei_name info)), b)
        /\ convertInputType (tablesOf b) (TEnumObject e) b
           = (Ok (GEnumRef (ei_name info)), b))
    /\ (enumRecord b e = None ->
        forall tables,
          convertOutputType tables (TEnumObject e) b = (Ok (GForeign "enum"), b)
          /\ convertInputType tables (TEnumObject e) b = (Ok (GForeign "enum"), b)).
Proof.
  intros b e. unfold enumRecord. split.
  - intros info Hget.
    assert (Htable : isSome (Hash.get (tb_enums (tablesOf b)) (ei_name info)) = true).
    { apply enum_table_names. destruct (enummap_get_in _ _ _ Hget) as [e' Hin].
      now exists e', info. }
    unfold convertOutputType, convertInputType, bind, hasEnum, enums, gets, EnumMap.has.
    cbv beta iota. rewrite Hget. cbv beta iota. rewrite Hget.
    rewrite inputTypeNamed_run. unfold ret, enumNamed. now rewrite Htable.
  - intros Hget tables.
    unfold convertOutputType, convertInputType, bind, hasEnum, enums, gets, EnumMap.has.
    cbv beta iota. rewrite Hget. split; reflexivity.
Qed.

Lemma enum_object_resolution_witness :
  convertOutputType
    (tablesOf (Sample.after (Decorators.decorateEnum Sample.Role Sample.twoOfFour)))
    (TEnumObject Sample.Role)
    (Sample.after (Decorators.decorateEnum Sample.Role Sample.twoOfFour))
  = (Ok (GEnumRef "Role"),
     Sample.after (Decorators.decorateEnum Sample.Role Sample.twoOfFour))
  /\ convertInputType Sample.noTables (TEnumObject Sample.Role) newSchemaBuilder
     = (Ok (GForeign "enum"), newSchemaBuilder).
Proof.
  split.
  - refine (proj1 (proj1 (enum_object_resolution
                            (Sample.after (Decorators.decorateEnum Sample.Role
                                                                   Sample.twoOfFour))
                            Sample.Role) _ eq_refl)).
  - exact (proj2 (proj2 (enum_object_resolution newSchemaBuilder Sample.Role) eq_refl
                    Sample.noTables)).
Defined.

(** ** When [build] returns *)













(** ** What the root objects hold *)

Lemma convertOperation_forwards tables r b config b' :
  convertOperation tables r b = (Ok config, b') -> forwards r config.
Proof.
  unfold convertOperation. intros H.
  apply bind_inv_ok in H. destruct H as [t [b1 [_ H]]].
  apply bind_inv_ok in H. destruct H as [a [b2 [_ H]]].
  unfold ret in H. inversion H. unfold forwards. simpl. auto.
Qed.

Lemma hash_keys_in {V : Type} (h : Hash.t V) k :
  In k (Hash.keys h) <-> exists v, In (k, v) h.
Proof.
  unfold Hash.keys. rewrite in_map_iff. split.
  - intros [[k' v] [<- Hin]]. now exists v.
  - intros [v Hin]. now exists (k, v).
Qed.

(** One inner loop of the root assembly, on the map it fills. *)
Lemma addOperations_fields tables b (operations : Hash.t ResolverInfo) :
  forall acc acc' b',
    addOperations tables operations acc b = (Ok acc', b') ->
    (NoDup (Hash.keys acc) -> NoDup (Hash.keys acc'))
    /\ (forall key, In key (Hash.keys acc') <->
                    In key (Hash.keys acc) \/ In key (Hash.keys operations))
    /\ (forall key config,
           In (key, config) acc' ->
           In (key, config) acc
           \/ exists r, In (key, r) operations
                        /\ convertOperation tables r b = (Ok config, b)).
Proof.
  unfold addOperations.
  induction operations as [| [k r] operations IH]; intros acc acc' b' H; simpl in H.
  - unfold ret in H. inversion H. subst. repeat split; auto.
    + intros [Hin | []]. exact Hin.
  - apply bind_inv_ok in H. destruct H as [acc1 [b1 [Hstep Hrest]]].
    apply bind_inv_ok in Hstep. destruct Hstep as [config [b2 [Hc Hret]]].
    unfold ret in Hret. inversion Hret. subst acc1 b2. clear Hret.
    pose proof (readOnly_convertOperation tables r b) as Hro.
    rewrite Hc in Hro. simpl in Hro. subst b1.
    destruct (IH _ _ _ Hrest) as [IHnd [IHkeys IHin]]. split; [| split].
    + intros Hnd. apply IHnd. now apply hash_nodup_set.
    + intros key. rewrite IHkeys, hash_keys_set. simpl. intuition.
    + intros key cfg Hin. apply IHin in Hin.
      destruct Hin as [Hin | [r' [Hin Hr']]].
      * apply hash_in_set in Hin. destruct Hin as [[-> ->] | Hin]; [| now left].
        right. exists r. split; [now left | exact Hc].
      * right. exists r'. split; [now right | exact Hr'].
Qed.

(** The outer loop, on one of the three maps. *)
Lemma collect_fields tables b (component : Operations -> Hash.t GraphQLFieldConfig)
      (sel : TypeInfo -> Hash.t ResolverInfo) :
  (forall acc entry acc' b',
      collectOperations tables acc entry b = (Ok acc', b') ->
      exists mid b1,
        addOperations tables (sel (snd entry)) (component acc) b = (Ok mid, b1)
        /\ component acc' = mid) ->
  forall (ts : Hash.t TypeInfo) acc acc' b',
    foldM (collectOperations tables) ts acc b = (Ok acc', b') ->
    (NoDup (Hash.keys (component acc)) -> NoDup (Hash.keys (component acc')))
    /\ (forall key, In key (Hash.keys (component acc')) <->
                    In key (Hash.keys (component acc))
                    \/ exists name info, In (name, info) ts
                                         /\ In key (Hash.keys (sel info)))
    /\ (forall key config,
           In (key, config) (component acc') ->
           In (key, config) (component acc)
           \/ exists name info r,
                In (name, info) ts /\ In (key, r) (sel info)
                /\ convertOperation tables r b = (Ok config, b)).
Proof.
  intros Hone. induction ts as [| [name info] ts IH]; intros acc acc' b' H; simpl in H.
  - unfold ret in H. inversion H. subst. repeat split; auto.
    intros [Hin | [? [? [[] _]]]]. exact Hin.
  - apply bind_inv_ok in H. destruct H as [acc1 [b1 [Hstep Hrest]]].
    pose proof (readOnly_collectOperations tables acc (name, info) b) as Hro.
    rewrite Hstep in Hro. simpl in Hro. subst b1.
    destruct (Hone _ _ _ _ Hstep) as [mid [b2 [Hadd Hmid]]]. simpl in Hadd.
    destruct (addOperations_fields _ _ _ _ _ _ Hadd) as [Hnd [Hkeys Hin]].
    destruct (IH _ _ _ Hrest) as [IHnd [IHkeys IHin]].
    rewrite Hmid in *. split; [| split].
    + auto.
    + intros key. rewrite IHkeys, Hkeys. split.
      * intros [[H | H] | [n [i [Hi Hk]]]]; [now left | right | right].
        -- exists name, info. split; [now left | exact H].
        -- exists n, i. split; [now right | exact Hk].
      * intros [H | [n [i [[[= <- <-] | Hi] Hk]]]]; [auto | auto |].
        right. now exists n, i.
    + intros key cfg Hc. apply IHin in Hc.
      destruct Hc as [Hc | [n [i [r [Hi [Hr Hconv]]]]]].
      * apply Hin in Hc. destruct Hc as [Hc | [r [Hr Hconv]]]; [now left |].
        right. exists name, info, r. split; [now left | now split].
      * right. exists n, i, r. split; [now right | now split].
Qed.

Lemma collectOperations_parts tables acc entry b acc' b' :
  collectOperations tables acc entry b = (Ok acc', b') ->
  (exists mid b1, addOperations tables (ti_queries (snd entry)) (op_queries acc) b
                  = (Ok mid, b1) /\ op_queries acc' = mid)
  /\ (exists mid b1, addOperations tables (ti_mutations (snd entry)) (op_mutations acc) b
                     = (Ok mid, b1) /\ op_mutations acc' = mid)
  /\ (exists mid b1, addOperations tables (ti_subscriptions (snd entry))
                                   (op_subscriptions acc) b
                     = (Ok mid, b1) /\ op_subscriptions acc' = mid).
Proof.
  unfold collectOperations. intros H.
  apply bind_inv_ok in H. destruct H as [q [bq [Hq H]]].
  pose proof (readOnly_addOperations tables (ti_queries (snd entry)) (op_queries acc) b)
    as Hroq. rewrite Hq in Hroq. simpl in Hroq. subst bq.
  apply bind_inv_ok in H. destruct H as [m [bm [Hm H]]].
  pose proof (readOnly_addOperations tables (ti_mutations (snd entry)) (op_mutations acc) b)
    as Hrom. rewrite Hm in Hrom. simpl in Hrom. subst bm.
  apply bind_inv_ok in H. destruct H as [s [bs [Hs Hret]]].
  unfold ret in Hret. inversion Hret. subst acc' b'. simpl.
  split; [| split]; eexists; eexists; split; try eassumption; reflexivity.
Qed.

Lemma rootFields_optionalRoot name fields : rootFields (optionalRoot name fields) = fields.
Proof. unfold optionalRoot. destruct fields; reflexivity. Qed.

(** X11.  In the schema [build] returns, each root object holds every
    operation name registered for it on any record, each once, and no other;
    the field under a name is the conversion of an operation registered
    under that name, with that operation's resolver, subscribe hook and
    description handed on as they are. *)
Theorem roots_hold_the_operations :
  forall (b b' : SchemaBuilder) (s : GraphQLSchema),
    build b = (Ok s, b') ->
    rootHolds b ti_queries (s_query s)
    /\ rootHolds b ti_mutations (s_mutation s)
    /\ rootHolds b ti_subscriptions (s_subscription s).
Proof.
  intros b b' s H. apply build_inv in H. destruct H as [ops [b1 [Hops ->]]].
  fold (tablesOf b) in Hops. simpl.
  assert (Hroot : forall component sel,
             (forall acc entry acc' b0,
                 collectOperations (tablesOf b) acc entry b = (Ok acc', b0) ->
                 exists mid b2,
                   addOperations (tablesOf b) (sel (snd entry)) (component acc) b
                   = (Ok mid, b2) /\ component acc' = mid) ->
             component (mkOperations [] [] []) = [] ->
             forall root, rootFields root = component ops -> rootHolds b sel root).
  { intros component sel Hone Hstart root Hroot.
    destruct (collect_fields _ _ component sel Hone _ _ _ _ Hops) as [Hnd [Hkeys Hin]].
    unfold rootHolds. rewrite Hroot, Hstart in *. split; [| split].
    - apply Hnd. constructor.
    - intros key. rewrite Hkeys. simpl. intuition.
    - intros key config Hc. apply Hin in Hc.
      destruct Hc as [[] | [n [i [r [Hi [Hr Hconv]]]]]].
      exists n, i, r. repeat split; try assumption.
      all: now apply (convertOperation_forwards _ _ _ _ _ Hconv). }
  split; [| split].
  - apply (Hroot op_queries ti_queries); [| reflexivity | reflexivity].
    intros acc entry acc' b0 Hc. exact (proj1 (collectOperations_parts _ _ _ _ _ _ Hc)).
  - apply (Hroot op_mutations ti_mutations);
      [| reflexivity | apply rootFields_optionalRoot].
    intros acc entry acc' b0 Hc.
    exact (proj1 (proj2 (collectOperations_parts _ _ _ _ _ _ Hc))).
  - apply (Hroot op_subscriptions ti_subscriptions);
      [| reflexivity | apply rootFields_optionalRoot].
    intros acc entry acc' b0 Hc.
    exact (proj2 (proj2 (collectOperations_parts _ _ _ _ _ _ Hc))).
Qed.

Lemma roots_hold_the_operations_witness :
  exists s,
    build (Sample.after Scenario.chat) = (Ok s, Sample.after Scenario.chat)
    /\ rootHolds (Sample.after Scenario.chat) ti_queries (s_query s)
    /\ rootHolds (Sample.after Scenario.chat) ti_mutations (s_mutation s)
    /\ rootHolds (Sample.after Scenario.chat) ti_subscriptions (s_subscription s).
Proof.
  eexists. split; [cbv; reflexivity |].
  refine (roots_hold_the_operations (Sample.after Scenario.chat)
            (Sample.after Scenario.chat) _ _).
  reflexivity.
Defined.

(** ** The fields a thunk yields *)

Lemma mapM_inv_readOnly {A B : Type} (f : A -> M B) (xs : list A) :
  (forall x, readOnly (f x)) ->
  forall ys b b',
    mapM f xs b = (Ok ys, b') ->
    Forall2 (fun x y => f x b = (Ok y, b)) xs ys.
Proof.
  intros Hro. induction xs as [| x xs IH]; intros ys b b' H; simpl in H.
  - unfold ret in H. inversion H. constructor.
  - apply bind_inv_ok in H. destruct H as [y [b1 [Hy H]]].
    pose proof (Hro x b) as Hb. rewrite Hy in Hb. simpl in Hb. subst b1.
    apply bind_inv_ok in H. destruct H as [ys' [b2 [Hys Hret]]].
    unfold ret in Hret. inversion Hret. subst. constructor; eauto.
Qed.

(** X12.  The fields the thunk of a type yields are made one by one from
    the inherited field records: each carries the name and the description
    of its record and the type [convertFieldInfoToType] makes of it; it
    carries the record's resolver, except on a record of kind input, where
    no field carries a resolver. *)
Theorem fields_are_converted_one_by_one :
  forall (tables : Tables) (info : TypeInfo) (converter : Converter)
         (b b' : SchemaBuilder) (configs : Hash.t GraphQLFieldConfig),
    getFields tables info converter b = (Ok configs, b') ->
    exists fields,
      inheritedFields info b = (Ok fields, b)
      /\ forall name config,
           In (name, config) configs ->
           exists fieldInfo,
             In (name, fieldInfo) fields
             /\ convertFieldInfoToType (inl fieldInfo) (runConverter tables converter) b
                = (Ok (fc_type config), b)
             /\ fc_name config = Some name
             /\ fc_description config = f_description fieldInfo
             /\ fc_resolve config
                = (if Decorators.isInput (ti_kind info) then None
                   else f_resolver fieldInfo).
Proof.
  intros tables info converter b b' configs H. unfold getFields in H.
  apply bind_inv_ok in H. destruct H as [fields [b1 [Hf H]]].
  pose proof (readOnly_inheritedFields info b) as Hro. rewrite Hf in Hro. simpl in Hro.
  subst b1. exists fields. split; [exact Hf |]. clear Hf.
  apply bind_inv_ok in H. destruct H as [converted [b2 [Hc Hret]]].
  unfold ret in Hret. inversion Hret. subst configs b2. clear Hret.
  apply mapM_inv_readOnly in Hc.
  2:{ intros x. apply readOnly_bind;
        [apply readOnly_convertFieldInfoToType; apply readOnly_runConverter |].
      intros t. apply readOnly_bind; [| intros a; apply readOnly_ret].
      destruct (f_args (snd x)); [| apply readOnly_ret].
      apply readOnly_bind; [apply readOnly_convertArguments | intros a; apply readOnly_ret]. }
  intros name config Hin. apply hash_in_spread_all in Hin.
  destruct Hin as [[] | [h [Hh Hin]]].
  induction Hc as [| [n fi] y xs ys Hxy Hrest IH]; [destruct Hh |].
  destruct Hh as [<- | Hh].
  - cbn [fst snd] in Hxy. apply bind_inv_ok in Hxy. destruct Hxy as [t [b3 [Ht Hxy]]].
    pose proof (readOnly_convertFieldInfoToType (inl fi) (runConverter tables converter)
                  (readOnly_runConverter tables converter) b) as Hb.
    rewrite Ht in Hb. simpl in Hb. subst b3.
    apply bind_inv_ok in Hxy. destruct Hxy as [a [b4 [_ Hret]]].
    unfold ret in Hret. inversion Hret. subst y.
    destruct Hin as [[= <- <-] | []]. exists fi. cbn [fc_type fc_name fc_description fc_resolve].
    split; [now left |]. auto.
  - destruct (IH Hh) as [fieldInfo [Hfi Hrest']]. exists fieldInfo.
    split; [now right | exact Hrest'].
Qed.

Lemma fields_are_converted_one_by_one_witness :
  exists configs fields,
    getFields (tablesOf (Sample.after Scenario.inputWithResolver))
              (infoOf (Sample.after Scenario.inputWithResolver) Scenario.MyInput)
              ConvertInputType (Sample.after Scenario.inputWithResolver)
    = (Ok configs, Sample.after Scenario.inputWithResolver)
    /\ inheritedFields (infoOf (Sample.after Scenario.inputWithResolver) Scenario.MyInput)
                       (Sample.after Scenario.inputWithResolver)
       = (Ok fields, Sample.after Scenario.inputWithResolver)
    /\ forall name config,
         In (name, config) configs ->
         exists fieldInfo,
           In (name, fieldInfo) fields
           /\ fc_resolve config = None
           /\ f_resolver fieldInfo = Some 7.
Proof.
  eexists.
  assert (Hrun : getFields (tablesOf (Sample.after Scenario.inputWithResolver))
                   (infoOf (Sample.after Scenario.inputWithResolver) Scenario.MyInput)
                   ConvertInputType (Sample.after Scenario.inputWithResolver)
                 = (Ok _, Sample.after Scenario.inputWithResolver))
    by (cbv; reflexivity).
  destruct (fields_are_converted_one_by_one _ _ _ _ _ _ Hrun) as [fields [Hf Hall]].
  exists fields. split; [exact Hrun |]. split; [exact Hf |].
  intros name config Hin. destruct (Hall name config Hin) as [fi [Hfi [_ [_ [_ Hres]]]]].
  exists fi. split; [exact Hfi |]. split; [exact Hres |].
  assert (Hfields : fields = [("value", mkFieldInfo (Some "value")
                                          (Some (TGraphQL Sample.GraphQLString))
                                          None (Some 7) None false false false)]).
  { assert (Hcomp : inheritedFields
                      (infoOf (Sample.after Scenario.inputWithResolver) Scenario.MyInput)
                      (Sample.after Scenario.inputWithResolver)
                    = (Ok [("value", mkFieldInfo (Some "value")
                                       (Some (TGraphQL Sample.GraphQLString))
                                       None (Some 7) None false false false)],
                       Sample.after Scenario.inputWithResolver)) by reflexivity.
    rewrite Hcomp in Hf. now inversion Hf. }
  subst fields. destruct Hfi as [[= <- <-] | []]. reflexivity.
Defined.

(** ** The interfaces a type declares *)

Lemma resolve_interfaces_declared tables refs b :
  forallb (declaredInterface tables) refs = true ->
  mapM (resolveInterface tables) refs b = (Ok (map interfaceOf refs), b).
Proof.
  induction refs as [| r refs IH]; simpl; [reflexivity |].
  intros H. apply andb_prop in H. destruct H as [Hr Hrest].
  unfold bind at 1.
  assert (Hone : resolveInterface tables r b = (Ok (interfaceOf r), b)).
  { destruct r; simpl in *; [now rewrite Hr | now rewrite Hr | discriminate]. }
  rewrite Hone. unfold bind at 1. now rewrite (IH Hrest).
Qed.

(** X13.  The [interfaces] thunk yields no interface for a type that
    declares none; when every reference of the list is a name, or a class
    whose name, an interface is materialised under, it yields those
    interfaces in the order of the list; and it throws whenever the list
    holds an interface type object itself, whether or not an interface of
    that name exists. *)
Theorem interfaces_thunk_outcome :
  forall (tables : Tables) (info : TypeInfo) (b : SchemaBuilder),
    (ti_interfaces info = None -> getInterfaces tables info b = (Ok [], b))
    /\ (forall refs,
           ti_interfaces info = Some refs ->
           forallb (declaredInterface tables) refs = true ->
           getInterfaces tables info b = (Ok (map interfaceOf refs), b))
    /\ (forall refs name,
           ti_interfaces info = Some refs ->
           In (IObject name) refs ->
           exists r, In r refs
                     /\ getInterfaces tables info b
                        = (Throw (Error (interfaceNotDefined r)), b)).
Proof.
  intros tables info b. unfold getInterfaces. split; [| split].
  - intros H. now rewrite H.
  - intros refs H Hall. rewrite H. now apply resolve_interfaces_declared.
  - intros refs name H Hin. rewrite H.
    destruct (find (fun r => negb (declaredInterface tables r)) refs) as [r |] eqn:Hfind.
    + exists r. split; [now apply find_some in Hfind |].
      now apply resolve_interfaces_first_undeclared.
    + exfalso. pose proof (find_none _ _ Hfind _ Hin) as Hfalse. discriminate Hfalse.
Qed.

Lemma interfaces_thunk_outcome_witness :
  getInterfaces (tablesOf (Sample.after Scenario.nodeAndUser))
                (infoOf (Sample.after Scenario.nodeAndUser) Scenario.User)
                (Sample.after Scenario.nodeAndUser)
  = (Ok [GInterfaceRef "Node"; GInterfaceRef "Node"], Sample.after Scenario.nodeAndUser)
  /\ getInterfaces (tablesOf (Sample.after Scenario.nodeAndUser))
                   (infoOf (Sample.after Scenario.nodeAndUser) Scenario.Node)
                   (Sample.after Scenario.nodeAndUser)
     = (Ok [], Sample.after Scenario.nodeAndUser).
Proof.
  split.
  - exact (proj1 (proj2 (interfaces_thunk_outcome
                           (tablesOf (Sample.after Scenario.nodeAndUser))
                           (infoOf (Sample.after Scenario.nodeAndUser) Scenario.User)
                           (Sample.after Scenario.nodeAndUser)))
             [IClass Scenario.Node; IString "Node"] eq_refl eq_refl).
  - exact (proj1 (interfaces_thunk_outcome
                    (tablesOf (Sample.after Scenario.nodeAndUser))
                    (infoOf (Sample.after Scenario.nodeAndUser) Scenario.Node)
                    (Sample.after Scenario.nodeAndUser)) eq_refl).
Defined.

(** ** Registering an enum *)

Lemma JSValue_eqb_eq (a b : JSValue) : JSValue_eqb a b = true -> a = b.
Proof.
  destruct a, b; simpl; intros H; try discriminate; try reflexivity; f_equal.
  - now apply Bool.eqb_prop.
  - now apply Z.eqb_eq.
  - now apply String.eqb_eq.
Qed.

Lemma entries_eqb_eq (a b : Hash.t JSValue) : entries_eqb a b = true -> a = b.
Proof.
  revert b. induction a as [| [k v] a IH]; intros [| [k' v'] b]; simpl; intros H;
    try discriminate; [reflexivity |].
  apply andb_prop in H. destruct H as [H Hrest].
  apply andb_prop in H. destruct H as [Hk Hv].
  apply String.eqb_eq in Hk. apply JSValue_eqb_eq in Hv. apply IH in Hrest.
  now subst.
Qed.

Lemma enum_eqb_eq (a b : EnumObject) : enum_eqb a b = true -> a = b.
Proof.
  unfold enum_eqb. intros H. apply andb_prop in H. destruct H as [Hid Hentries].
  apply Nat.eqb_eq in Hid. apply entries_eqb_eq in Hentries.
  destruct a, b. simpl in *. now subst.
Qed.

Lemma enummap_get_set_other (m : EnumMap.t) k v k' :
  enum_eqb k' k = false -> EnumMap.get (EnumMap.set m k v) k' = EnumMap.get m k'.
Proof.
  intros Hne. induction m as [| [k0 v0] m IH]; simpl.
  - now rewrite Hne.
  - destruct (enum_eqb k k0) eqn:E; simpl.
    + destruct (enum_eqb k' k0) eqn:E'; [| reflexivity].
      apply enum_eqb_eq in E, E'. subst.
      rewrite enum_eqb_refl in Hne. discriminate Hne.
    + now rewrite IH.
Qed.

Lemma decorate_values_target (values : Hash.t EnumValueInfo) :
  forall info,
    ei_target (fold_left (fun i nv => Decorators.decorateValue (fst nv) (snd nv) i)
                         values info) = ei_target info.
Proof.
  induction values as [| [n v] values IH]; intros info; simpl; [reflexivity |].
  now rewrite IH.
Qed.

(** [decorateEnum] on an enum the registry does not know, under a name
    that passes the guard. *)
Lemma decorateEnum_fresh_run object args b n :
  ea_name args = Some n -> trim n <> EmptyString -> enumRecord b object = None ->
  Decorators.decorateEnum object args b
  = match reduce1 Hash.spread
            (map (fun nv => Hash.single (fst nv) (mkEnumValueInfo (Some (snd nv)) None None))
                 (e_entries object)) with
    | Ok values =>
        (Ok tt,
         set_enums
           (EnumMap.set (_enums b) object
              (fold_left (fun i nv => Decorators.decorateValue (fst nv) (snd nv) i)
                         (match ea_values args with Some vs => vs | None => [] end)
                         (set_ei_description (ea_description args)
                            (mkEnumInfo (trim n) None object values))))
           b)
    | Throw e => (Throw e, b)
    end.
Proof.
  intros Hname Hn Hfresh. unfold enumRecord in Hfresh.
  unfold Decorators.decorateEnum. rewrite Hname.
  unfold bind at 1. rewrite (getOrAddEnum_named _ _ _ Hn), Hfresh.
  destruct (reduce1 _ _) as [values | e]; [| reflexivity].
  unfold bind at 1. erewrite assignEnum_registered by (simpl; apply enummap_get_set_same).
  simpl. rewrite enummap_set_set.
  destruct (ea_values args) as [vs |].
  - erewrite decorate_values_registered by (simpl; apply enummap_get_set_same).
    simpl. now rewrite enummap_set_set.
  - reflexivity.
Qed.



(** ** Where enum values come from *)

Lemma initial_values_from_object object values :
  reduce1 Hash.spread
    (map (fun nv => Hash.single (fst nv) (mkEnumValueInfo (Some (snd nv)) None None))
         (e_entries object)) = Ok values ->
  valuesFromObject object values.
Proof.
  intros Hred. split.
  - intros name Hin. now apply (initial_values_keys _ _ name Hred).
  - intros name v Hin. unfold reduce1 in Hred.
    destruct (e_entries object) as [| [n x] entries] eqn:He; [discriminate |].
    simpl in Hred. inversion Hred as [Hv]. clear Hred. rewrite <- Hv in Hin.
    apply hash_in_spread_all in Hin.
    destruct Hin as [[[= <- <-] | []] | [h [Hh Hin]]]; [simpl; now left |].
    apply in_map_iff in Hh. destruct Hh as [[n' x'] [<- Hentry]].
    destruct Hin as [[= <- <-] | []]. simpl. now right.
Qed.

Lemma decorateValue_from_object object name value info :
  valuesFromObject object (ei_values info) ->
  valuesFromObject object (ei_values (Decorators.decorateValue name value info)).
Proof.
  intros [Hkeys Hvalues]. unfold Decorators.decorateValue. simpl. split.
  - intros k Hk. apply hash_keys_set. right. now apply Hkeys.
  - intros k v Hin. apply hash_in_set in Hin.
    destruct Hin as [[-> ->] | Hin]; [| now apply Hvalues]. simpl.
    destruct (Hash.get (ei_values info) name) as [current |] eqn:Hget.
    + apply hash_get_in in Hget. exact (Hvalues _ _ Hget).
    + simpl. intros Hk. apply Hkeys in Hk. now apply hash_get_none in Hget.
Qed.

Lemma decorate_values_from_object object (values : Hash.t EnumValueInfo) :
  forall info,
    valuesFromObject object (ei_values info) ->
    valuesFromObject object
      (ei_values (fold_left (fun i nv => Decorators.decorateValue (fst nv) (snd nv) i)
                            values info)).
Proof.
  induction values as [| [n v] values IH]; intros info H; simpl; [exact H |].
  apply IH. now apply decorateValue_from_object.
Qed.

Lemma materializeEnum_in info name config :
  In (name, config) (et_values (materializeEnum info)) ->
  exists v, In (name, v) (ei_values info)
            /\ evc_value config = ev_value v
            /\ evc_description config = ev_description v
            /\ evc_deprecationReason config = ev_deprecationReason v.
Proof.
  unfold materializeEnum. simpl. intros Hin. apply hash_in_spread_all in Hin.
  destruct Hin as [[] | [h [Hh Hin]]].
  apply in_map_iff in Hh. destruct Hh as [[n v] [<- Hv]].
  destruct Hin as [[= <- <-] | []]. exists v. simpl. auto.
Qed.

(** X15.  When [decorateEnum] first registers an enum, every key of the
    enum object gets a value record, and the [value] of each record, and of
    each value of the enum type [build] makes of it, is the enum object's own
    entry of that name, or undefined for a name the object does not have: a
    [value] given in the call's [values] map is never taken over. *)
Theorem enum_values_come_from_the_object :
  forall (object : EnumObject) (args : EnumDecorationArguments) (b b' : SchemaBuilder),
    enumRecord b object = None ->
    Decorators.decorateEnum object args b = (Ok tt, b') ->
    exists info,
      enumRecord b' object = Some info
      /\ valuesFromObject object (ei_values info)
      /\ forall name config,
           In (name, config) (et_values (materializeEnum info)) ->
           match evc_value config with
           | Some x => In (name, x) (e_entries object)
           | None => ~ In name (Hash.keys (e_entries object))
           end.
Proof.
  intros object args b b' Hfresh Hrun.
  destruct (decorateEnum_inv _ _ _ _ Hrun) as [n [start [_ [_ [Hstart ->]]]]].
  rewrite Hfresh in Hstart. destruct Hstart as [values [Hred ->]].
  eexists. unfold enumRecord. simpl. split; [apply enummap_get_set_same |].
  assert (Hfrom : valuesFromObject object
                    (ei_values
                       (fold_left (fun i nv => Decorators.decorateValue (fst nv) (snd nv) i)
                                  (match ea_values args with Some vs => vs | None => [] end)
                                  (set_ei_description (ea_description args)
                                     (mkEnumInfo (trim n) None object values))))).
  { apply decorate_values_from_object. simpl.
    now apply initial_values_from_object. }
  split; [exact Hfrom |].
  intros name config Hin. apply materializeEnum_in in Hin.
  destruct Hin as [v [Hv [Hvalue _]]]. rewrite Hvalue.
  exact (proj2 Hfrom _ _ Hv).
Qed.

Lemma enum_values_come_from_the_object_witness :
  exists info,
    enumRecord (Sample.after (Decorators.decorateEnum Sample.Role Scenario.withValues))
               Sample.Role = Some info
    /\ valuesFromObject Sample.Role (ei_values info)
    /\ forall name config,
         In (name, config) (et_values (materializeEnum info)) ->
         match evc_value config with
         | Some x => In (name, x) (e_entries Sample.Role)
         | None => ~ In name (Hash.keys (e_entries Sample.Role))
         end.
Proof.
  apply (enum_values_come_from_the_object Sample.Role Scenario.withValues
           newSchemaBuilder).
  - reflexivity.
  - reflexivity.
Defined.

(** ** Operation declarations *)


(** An operation declaration rewrites the record under the name of its
    class by setting one key of one map of operations. *)
Lemma operation_declaration_run d root args constructor methodName descriptorValue b :
  operationLevel d = Some (root, args, constructor, methodName, descriptorValue) ->
  exists f,
    declare d b = (Ok tt, writeType (c_name constructor) f b)
    /\ forall t,
         operationsAt root (f t)
         = Hash.set (operationsAt root t) methodName
             (mkResolverInfo (ra_returnType args)
                (mkResolverConfig (ra_args args) descriptorValue
                   match root with
                   | RSubscription => ra_subscribe args
                   | _ => None
                   end
                   (ra_description args)))
         /\ (forall root', root' <> root -> operationsAt root' (f t) = operationsAt root' t)
         /\ ti_name (f t) = ti_name t
         /\ ti_kind (f t) = ti_kind t
         /\ ti_target (f t) = ti_target t
         /\ ti_description (f t) = ti_description t
         /\ ti_interfaces (f t) = ti_interfaces t
         /\ ti_fields (f t) = ti_fields t.
Proof.
  destruct d; simpl; intros H; inversion H; subst; clear H;
    unfold Decorators.query, Decorators.mutation, Decorators.subscription;
    unfold bind; rewrite getOrAddType_run; cbv beta iota;
    rewrite assignType_writeType;
    (eexists; split; [reflexivity |]);
    intros t; simpl; (split; [reflexivity |]);
    (split; [intros [| |] Hne; simpl; congruence || reflexivity |]);
    repeat split.
Qed.



(** ** The enum registry under any program of declarations *)

(** A call of [decorateEnum] that throws leaves the builder as it was. *)
Lemma decorateEnum_throw_state object args b e b1 :
  Decorators.decorateEnum object args b = (Throw e, b1) -> b1 = b.
Proof.
  intros Hrun. destruct (ea_name args) as [n |] eqn:Hname.
  2:{ rewrite decorateEnum_rejected in Hrun by now rewrite Hname.
      now inversion Hrun. }
  destruct (string_dec (trim n) EmptyString) as [He | Hn].
  { rewrite decorateEnum_rejected in Hrun by now rewrite Hname.
    now inversion Hrun. }
  destruct (enumRecord b object) as [info |] eqn:Hreg.
  - unfold enumRecord in Hreg. unfold Decorators.decorateEnum in Hrun.
    rewrite Hname in Hrun. unfold bind at 1 in Hrun.
    rewrite (getOrAddEnum_named _ _ _ Hn), Hreg in Hrun.
    unfold bind at 1 in Hrun. rewrite (assignEnum_registered _ _ _ _ Hreg) in Hrun.
    destruct (ea_values args) as [vs |]; [| discriminate].
    erewrite decorate_values_registered in Hrun
      by (simpl; apply enummap_get_set_same).
    discriminate.
  - rewrite (decorateEnum_fresh_run _ _ _ _ Hname Hn Hreg) in Hrun.
    destruct (reduce1 _ _); [discriminate | now inversion Hrun].
Qed.

Lemma declare_enums d b :
  (forall object args, d <> DEnum object args) ->
  _enums (snd (declare d b)) = _enums b.
Proof.
  intros Hd. destruct d as [c p a | args o | args o | args o | args o | args c m v
                            | args c m v | args c m v | o args].
  - simpl. now rewrite annotate_run.
  - destruct (class_declaration_run (DInterface args o) _ _ b eq_refl) as [f [-> _]].
    reflexivity.
  - destruct (class_declaration_run (DType args o) _ _ b eq_refl) as [f [-> _]].
    reflexivity.
  - destruct (class_declaration_run (DInput args o) _ _ b eq_refl) as [f [-> _]].
    reflexivity.
  - destruct (class_declaration_run (DScalar args o) _ _ b eq_refl) as [f [-> _]].
    reflexivity.
  - destruct (operation_declaration_run (DQuery args c m v) _ _ _ _ _ b eq_refl)
      as [f [-> _]]. reflexivity.
  - destruct (operation_declaration_run (DMutation args c m v) _ _ _ _ _ b eq_refl)
      as [f [-> _]]. reflexivity.
  - destruct (operation_declaration_run (DSubscription args c m v) _ _ _ _ _ b eq_refl)
      as [f [-> _]]. reflexivity.
  - now destruct (Hd o args).
Qed.

Lemma enumsFollowObjects_declare d : preserves enumsFollowObjects (declare d).
Proof.
  intros b Hinv.
  destruct d as [c p a | args o | args o | args o | args o | args c m v
                 | args c m v | args c m v | object args];
    try (intros object' info'; unfold enumRecord; rewrite declare_enums by discriminate;
         apply Hinv).
  simpl. destruct (Decorators.decorateEnum object args b) as [[[] | e] b1] eqn:Hrun.
  2:{ apply decorateEnum_throw_state in Hrun. now subst b1. }
  destruct (decorateEnum_inv _ _ _ _ Hrun) as [n [start [_ [Hn [Hstart ->]]]]].
  assert (Hs : ei_target start = object /\ ei_name start <> EmptyString
               /\ valuesFromObject object (ei_values start)).
  { destruct (enumRecord b object) as [info |] eqn:Hreg.
    - subst start. now apply Hinv.
    - destruct Hstart as [values [Hred ->]]. simpl.
      split; [reflexivity | split; [assumption |]].
      now apply initial_values_from_object. }
  destruct Hs as [Htarget [Hname Hvalues]].
  intros object' info'. unfold enumRecord. simpl.
  destruct (enum_eqb object' object) eqn:E.
  - apply enum_eqb_eq in E. subst object'. rewrite enummap_get_set_same.
    intros [= <-]. rewrite decorate_values_target, decorate_values_name. simpl.
    split; [assumption | split; [assumption |]].
    apply decorate_values_from_object. exact Hvalues.
  - rewrite (enummap_get_set_other _ _ _ _ E). apply Hinv.
Qed.

(** X17.  Whatever program of declarations fills the registry, and however
    often an enum is decorated in it, each enum record stays bound to the
    enum object it is stored under, keeps a name that is not empty, has a
    value record for every key of the enum object, and holds in each value
    record the object's own entry of that name (undefined for a name the
    object lacks); the enum type [build] makes of the record carries these
    values. *)
Theorem enum_records_follow_their_objects :
  forall (ds : list Declaration) (object : EnumObject) (info : EnumInfo),
    enumRecord (declared ds) object = Some info ->
    ei_target info = object
    /\ ei_name info <> EmptyString
    /\ valuesFromObject object (ei_values info)
    /\ forall name config,
         In (name, config) (et_values (materializeEnum info)) ->
         match evc_value config with
         | Some x => In (name, x) (e_entries object)
         | None => ~ In name (Hash.keys (e_entries object))
         end.
Proof.
  intros ds object info Hget.
  assert (Hinv : enumsFollowObjects (declared ds)).
  { apply (preserves_forEachM enumsFollowObjects declare ds enumsFollowObjects_declare).
    intros o i H. discriminate H. }
  destruct (Hinv _ _ Hget) as [Htarget [Hname Hvalues]].
  repeat (split; [assumption |]).
  intros name config Hin. apply materializeEnum_in in Hin.
  destruct Hin as [v [Hv [Hvalue _]]]. rewrite Hvalue.
  exact (proj2 Hvalues _ _ Hv).
Qed.

Lemma enum_records_follow_their_objects_witness :
  exists info,
    enumRecord (declared [DEnum Sample.Role Sample.twoOfFour;
                          DEnum Sample.Role Scenario.withValues]) Sample.Role = Some info
    /\ ei_target info = Sample.Role
    /\ ei_name info <> EmptyString
    /\ valuesFromObject Sample.Role (ei_values info).
Proof.
  eexists. split; [cbv; reflexivity |].
  destruct (enum_records_follow_their_objects
              [DEnum Sample.Role Sample.twoOfFour; DEnum Sample.Role Scenario.withValues]
              Sample.Role _ eq_refl) as [Ht [Hn [Hv _]]].
  auto.
Defined.
